(** * Mario clone: the simulation step of [Game.js] over [engine.js]

    A shallow embedding of the frame step [stepGame], of its tile
    collision helpers, of the level loader [mkInitialGameState] and of
    the frame clock of [useGameLoop], together with the properties the
    specification states about them.

    Numbers.  A JavaScript number is modelled as [NaN] or an exact
    rational: the source divides only by the non-zero literals 1000,
    24 and 2, so no infinity arises from finite arguments, and rounding
    of doubles is not modelled.  Comparisons with [NaN] are false, and
    arithmetic on [NaN] is [NaN], as in the language.  [Math.pow], which
    only scales the horizontal velocity, is a parameter of the step.

    Exceptions.  The only expression of the step that can throw is the
    unguarded double index [level.tiles[y][x]] of [getTile]; the step is
    therefore written in an error monad with a single error.  Over a
    grid that has its declared rows the step returns for every finite
    time delta ([stepGame_total]).

    Objects.  An object spread followed by assignments is a record
    with one setter per assigned field; the property [lives] that a
    side hit adds to the player object is the optional field [p_lives].

    Layout: the model of the sources, concrete inputs and the
    vocabulary of the statements, then the lemmas and, claim by claim,
    the theorems. *)

From Stdlib Require Import ZArith QArith Qround Qreduction Qabs Qminmax.
From Stdlib Require Import List Bool String Lia Lqa.
Import ListNotations.

Set Implicit Arguments.

(* ================================================================== *)
(** ** JavaScript numbers *)

Module JsNum.

Inductive num : Type :=
| NaN : num
| Fin : Q -> num.

Definition ofZ (z : Z) : num := Fin (inject_Z z).

Definition lift2 (f : Q -> Q -> Q) (a b : num) : num :=
  match a, b with
  | Fin x, Fin y => Fin (Qred (f x y))
  | _, _ => NaN
  end.

Definition nadd : num -> num -> num := lift2 Qplus.
Definition nsub : num -> num -> num := lift2 Qminus.
Definition nmul : num -> num -> num := lift2 Qmult.

(** [a / b]; every divisor of the source is a non-zero literal, a zero
    divisor (an infinity in the language) is outside the model. *)
Definition ndiv (a b : num) : num :=
  match a, b with
  | Fin x, Fin y => if Qeq_bool y 0 then NaN else Fin (Qred (x / y))
  | _, _ => NaN
  end.

Definition nneg (a : num) : num :=
  match a with Fin x => Fin (Qred (- x)) | NaN => NaN end.

Definition Qlt_bool (x y : Q) : bool := negb (Qle_bool y x).

Definition cmp2 (f : Q -> Q -> bool) (a b : num) : bool :=
  match a, b with
  | Fin x, Fin y => f x y
  | _, _ => false
  end.

Definition nlt : num -> num -> bool := cmp2 Qlt_bool.
Definition nle : num -> num -> bool := cmp2 Qle_bool.
Definition ngt (a b : num) : bool := nlt b a.
Definition nge (a b : num) : bool := nle b a.

(** [Math.max], [Math.min], [Math.abs], [Math.floor]. *)
Definition Math_max : num -> num -> num :=
  lift2 (fun x y => if Qle_bool x y then y else x).
Definition Math_min : num -> num -> num :=
  lift2 (fun x y => if Qle_bool x y then x else y).
Definition Math_abs (a : num) : num :=
  match a with Fin x => Fin (Qred (Qabs x)) | NaN => NaN end.
Definition Math_floor (a : num) : num :=
  match a with Fin x => ofZ (Qfloor x) | NaN => NaN end.

(** [a % b] for the literal modulus [2] of the animation frame: the
    sign follows the dividend. *)
Definition nmod (a : num) (m : Z) : num :=
  match a with
  | Fin x => Fin (Qred (x - inject_Z (m * Z.quot (Qfloor (Qabs x)) m * Z.sgn (Qnum x))))
  | NaN => NaN
  end.

(** An array read [arr[i]] with a number as index: [undefined] ([None])
    unless [i] is a non-negative integer below the length. *)
Definition arrGet {A : Type} (arr : list A) (i : num) : option A :=
  match i with
  | NaN => None
  | Fin q =>
      let z := Qfloor q in
      if Qeq_bool q (inject_Z z) && (0 <=? z)%Z
      then nth_error arr (Z.to_nat z)
      else None
  end.

(** The values the loop variable of [for (i = a; i <= b; ++i)] takes. *)
Definition forRange (a b : num) : list num :=
  match a, b with
  | Fin x, Fin y =>
      if Qle_bool x y
      then map (fun k => Fin (Qred (x + inject_Z (Z.of_nat k))))
               (seq 0 (Z.to_nat (Qfloor (y - x) + 1)))
      else []
  | _, _ => []
  end.

End JsNum.
Import JsNum.

Declare Scope num_scope.
Delimit Scope num_scope with num.
Bind Scope num_scope with num.
Infix "+" := nadd : num_scope.
Infix "-" := nsub : num_scope.
Infix "*" := nmul : num_scope.
Infix "/" := ndiv : num_scope.
Infix "<?" := nlt : num_scope.
Infix "<=?" := nle : num_scope.
Infix ">?" := ngt : num_scope.
Infix ">=?" := nge : num_scope.
Notation "- x" := (nneg x) : num_scope.

(** Decimal literals of the source. *)
Definition lit (n : Z) (d : positive) : num := Fin (Qred (n # d)).

(* ================================================================== *)
(** ** The error monad of the step *)

Inductive result (A : Type) : Type :=
| Ok : A -> result A
| TypeError : result A.
Arguments Ok {A} _.
Arguments TypeError {A}.

Definition bind {A B : Type} (m : result A) (k : A -> result B) : result B :=
  match m with
  | Ok a => k a
  | TypeError => TypeError
  end.

Notation "x <- m ;; k" := (bind m (fun x => k))
  (at level 61, m at next level, right associativity).

Fixpoint mapM {A B : Type} (f : A -> result B) (l : list A) : result (list B) :=
  match l with
  | [] => Ok []
  | a :: l' => b <- f a ;; bs <- mapM f l' ;; Ok (b :: bs)
  end.

(* ================================================================== *)
(** ** engine.js *)

Definition GAME_WIDTH : num := ofZ 384.
Definition GAME_HEIGHT : num := ofZ 216.
Definition TILE_SIZE : num := ofZ 24.

(** [clamp(val, min, max) = Math.max(min, Math.min(max, val))]. *)
Definition clamp (val mn mx : num) : num := Math_max mn (Math_min mx val).

(** Tile codes: 0 air, 1 ground, 2 platform, 3 coin, 4 enemy start,
    5 flag.  A tile read off the grid may be [undefined] ([None]). *)
Definition tile : Type := option Z.

Record Level : Type := mkLevel {
  name : string;
  width : Z;
  height : Z;
  tiles : list (list Z)
}.

Definition level1 : Level := {|
  name := "Level 1: Go Go Mario!";
  width := 32;
  height := 10;
  tiles := [
    [0;0;0;0;0;0;0;0;0;0;0;0;0;0;0;0;0;0;0;0;0;0;0;0;0;0;0;0;0;0;0;0];
    [0;0;0;0;0;0;0;0;0;0;0;0;0;2;0;0;0;0;0;0;0;2;0;0;0;0;0;0;0;0;0;0];
    [0;0;0;0;0;0;0;0;0;0;3;0;0;0;0;0;0;0;0;4;0;0;3;0;0;0;2;0;0;0;0;0];
    [0;0;0;2;0;0;0;0;0;2;0;0;0;0;0;0;0;0;0;0;0;2;0;0;0;3;0;0;0;0;0;0];
    [0;0;0;0;0;0;0;2;0;0;0;3;0;0;0;0;0;0;2;0;0;0;0;0;0;0;4;0;0;0;0;0];
    [0;0;0;0;0;0;3;0;0;4;0;0;2;0;0;0;0;2;0;0;0;0;0;0;0;0;0;0;3;0;0;0];
    [0;0;0;0;0;2;0;0;0;0;0;0;0;3;0;0;2;0;0;0;0;0;0;2;0;0;0;0;0;0;0;0];
    [0;0;0;0;2;0;0;0;0;4;0;3;0;0;0;4;0;0;0;3;0;0;0;0;0;0;0;0;0;2;0;5];
    [1;1;1;1;1;1;1;1;1;1;1;1;1;1;1;1;1;1;1;1;1;1;1;1;1;1;1;1;1;1;1;1];
    [1;1;1;1;1;1;1;1;1;1;1;1;1;1;1;1;1;1;1;1;1;1;1;1;1;1;1;1;1;1;1;1]
  ]%Z
|}.

(** [t === k] on a tile that may be [undefined]. *)
Definition tileIs (k : Z) (t : tile) : bool :=
  match t with Some z => Z.eqb z k | None => false end.

Definition isSolid (t : tile) : bool := tileIs 1 t || tileIs 2 t || tileIs 5 t.
Definition isPlatform (t : tile) : bool := tileIs 2 t.
Definition isGround (t : tile) : bool := tileIs 1 t.
Definition isCoin (t : tile) : bool := tileIs 3 t.
Definition isEnemy (t : tile) : bool := tileIs 4 t.
Definition isFlag (t : tile) : bool := tileIs 5 t.

Record Rect : Type := mkRect { rx : num; ry : num; rw : num; rh : num }.

Definition rectsCollide (a b : Rect) : bool :=
  (rx a <? rx b + rw b)%num && (rx a + rw a >? rx b)%num &&
  (ry a <? ry b + rh b)%num && (ry a + rh a >? ry b)%num.

Module PHYS.
Definition gravity : num := ofZ 900.
Definition moveAccel : num := ofZ 800.
Definition maxDX : num := ofZ 180.
Definition maxDY : num := ofZ 450.
Definition jumpVel : num := ofZ 340.
Definition frictionGround : num := lit 78 100.
Definition frictionAir : num := lit 93 100.
Definition coyoteMs : num := ofZ 100.
Definition invulnMs : num := ofZ 1100.
Definition enemyPatrolSpeed : num := ofZ 60.
End PHYS.

(** A tile coordinate pair [{x, y}] of the loaders. *)
Record TilePos : Type := mkTilePos { tpx : Z; tpy : Z }.

(** The double loop [for y < tiles.length, for x < level.width] of
    [findSpawns] and [findCoins], collecting the positions whose tile
    satisfies [sel]; a row shorter than [width] reads [undefined]. *)
Definition scanRow (sel : tile -> bool) (w : Z) (y : nat) (row : list Z)
  : list TilePos :=
  flat_map
    (fun x => if sel (nth_error row x)
              then [mkTilePos (Z.of_nat x) (Z.of_nat y)] else [])
    (seq 0 (Z.to_nat w)).

Fixpoint scanRows (sel : tile -> bool) (w : Z) (y : nat) (rows : list (list Z))
  : list TilePos :=
  match rows with
  | [] => []
  | row :: rest => scanRow sel w y row ++ scanRows sel w (S y) rest
  end.

Record Spawns : Type := mkSpawns { sp_player : TilePos; sp_enemies : list TilePos }.

Definition findSpawns (level : Level) : Spawns :=
  {| sp_player := mkTilePos 1 5;
     sp_enemies := scanRows isEnemy (width level) 0 (tiles level) |}.

Definition findCoins (level : Level) : list TilePos :=
  scanRows isCoin (width level) 0 (tiles level).

Definition tile2px (tx ty : num) : num * num :=
  ((tx * TILE_SIZE)%num, (ty * TILE_SIZE)%num).

Definition px2tile (x y : num) : num * num :=
  (Math_floor (x / TILE_SIZE), Math_floor (y / TILE_SIZE)).

(* ================================================================== *)
(** ** useGameLoop.js: the frame clock *)

(** [const dt = Math.min((now - prev) / 1000, 0.07)]. *)
Definition maxDt : num := lit 7 100.
Definition frameDt (now prev : num) : num :=
  Math_min ((now - prev) / ofZ 1000) maxDt.

(* ================================================================== *)
(** ** Game.js: the world state *)

Definition initialLives : Z := 3.

(** The player object.  [p_lives] is the property [lives] that the
    side-hit branch of [stepGame] adds to the player object; it is absent
    ([None]) until the first side hit and is then carried along by
    every object spread. *)
Record Player : Type := mkPlayer {
  p_x : num; p_y : num;
  p_dx : num; p_dy : num;
  p_w : num; p_h : num;
  p_dir : Z;
  p_grounded : bool;
  p_jumping : bool;
  p_wantsJump : bool;
  p_coyote : num;
  p_invuln : num;
  p_animTimer : num;
  p_frame : num;
  p_dead : bool;
  p_respawnTimer : num;
  p_lives : option Z
}.

Record PatrolRange : Type := mkPatrol { pr_min : num; pr_max : num }.

Record Enemy : Type := mkEnemy {
  e_x : num; e_y : num;
  e_dx : num; e_dy : num;
  e_w : num; e_h : num;
  e_dead : bool;
  e_patrolRange : PatrolRange
}.

Record Coin : Type := mkCoin {
  c_x : num; c_y : num; c_r : num; c_collected : bool
}.

Record Camera : Type := mkCamera { cam_x : num; cam_y : num }.

Record GameState : Type := mkGameState {
  level : Level;
  player : Player;
  camera : Camera;
  enemies : list Enemy;
  coins : list Coin;
  collectedCoins : list nat;
  score : Z;
  lives : Z;
  win : bool;
  timer : num;
  started : bool
}.

(** Field assignments [p.f = v] on a copy of the player object. *)
Definition set_x (v : num) (p : Player) : Player :=
  mkPlayer v (p_y p) (p_dx p) (p_dy p) (p_w p) (p_h p) (p_dir p) (p_grounded p)
    (p_jumping p) (p_wantsJump p) (p_coyote p) (p_invuln p) (p_animTimer p)
    (p_frame p) (p_dead p) (p_respawnTimer p) (p_lives p).
Definition set_y (v : num) (p : Player) : Player :=
  mkPlayer (p_x p) v (p_dx p) (p_dy p) (p_w p) (p_h p) (p_dir p) (p_grounded p)
    (p_jumping p) (p_wantsJump p) (p_coyote p) (p_invuln p) (p_animTimer p)
    (p_frame p) (p_dead p) (p_respawnTimer p) (p_lives p).
Definition set_dx (v : num) (p : Player) : Player :=
  mkPlayer (p_x p) (p_y p) v (p_dy p) (p_w p) (p_h p) (p_dir p) (p_grounded p)
    (p_jumping p) (p_wantsJump p) (p_coyote p) (p_invuln p) (p_animTimer p)
    (p_frame p) (p_dead p) (p_respawnTimer p) (p_lives p).
Definition set_dy (v : num) (p : Player) : Player :=
  mkPlayer (p_x p) (p_y p) (p_dx p) v (p_w p) (p_h p) (p_dir p) (p_grounded p)
    (p_jumping p) (p_wantsJump p) (p_coyote p) (p_invuln p) (p_animTimer p)
    (p_frame p) (p_dead p) (p_respawnTimer p) (p_lives p).
Definition set_dir (v : Z) (p : Player) : Player :=
  mkPlayer (p_x p) (p_y p) (p_dx p) (p_dy p) (p_w p) (p_h p) v (p_grounded p)
    (p_jumping p) (p_wantsJump p) (p_coyote p) (p_invuln p) (p_animTimer p)
    (p_frame p) (p_dead p) (p_respawnTimer p) (p_lives p).
Definition set_grounded (v : bool) (p : Player) : Player :=
  mkPlayer (p_x p) (p_y p) (p_dx p) (p_dy p) (p_w p) (p_h p) (p_dir p) v
    (p_jumping p) (p_wantsJump p) (p_coyote p) (p_invuln p) (p_animTimer p)
    (p_frame p) (p_dead p) (p_respawnTimer p) (p_lives p).
Definition set_jumping (v : bool) (p : Player) : Player :=
  mkPlayer (p_x p) (p_y p) (p_dx p) (p_dy p) (p_w p) (p_h p) (p_dir p) (p_grounded p)
    v (p_wantsJump p) (p_coyote p) (p_invuln p) (p_animTimer p)
    (p_frame p) (p_dead p) (p_respawnTimer p) (p_lives p).
Definition set_coyote (v : num) (p : Player) : Player :=
  mkPlayer (p_x p) (p_y p) (p_dx p) (p_dy p) (p_w p) (p_h p) (p_dir p) (p_grounded p)
    (p_jumping p) (p_wantsJump p) v (p_invuln p) (p_animTimer p)
    (p_frame p) (p_dead p) (p_respawnTimer p) (p_lives p).
Definition set_invuln (v : num) (p : Player) : Player :=
  mkPlayer (p_x p) (p_y p) (p_dx p) (p_dy p) (p_w p) (p_h p) (p_dir p) (p_grounded p)
    (p_jumping p) (p_wantsJump p) (p_coyote p) v (p_animTimer p)
    (p_frame p) (p_dead p) (p_respawnTimer p) (p_lives p).
Definition set_animTimer (v : num) (p : Player) : Player :=
  mkPlayer (p_x p) (p_y p) (p_dx p) (p_dy p) (p_w p) (p_h p) (p_dir p) (p_grounded p)
    (p_jumping p) (p_wantsJump p) (p_coyote p) (p_invuln p) v
    (p_frame p) (p_dead p) (p_respawnTimer p) (p_lives p).
Definition set_frame (v : num) (p : Player) : Player :=
  mkPlayer (p_x p) (p_y p) (p_dx p) (p_dy p) (p_w p) (p_h p) (p_dir p) (p_grounded p)
    (p_jumping p) (p_wantsJump p) (p_coyote p) (p_invuln p) (p_animTimer p)
    v (p_dead p) (p_respawnTimer p) (p_lives p).
Definition set_dead (v : bool) (p : Player) : Player :=
  mkPlayer (p_x p) (p_y p) (p_dx p) (p_dy p) (p_w p) (p_h p) (p_dir p) (p_grounded p)
    (p_jumping p) (p_wantsJump p) (p_coyote p) (p_invuln p) (p_animTimer p)
    (p_frame p) v (p_respawnTimer p) (p_lives p).
Definition set_respawnTimer (v : num) (p : Player) : Player :=
  mkPlayer (p_x p) (p_y p) (p_dx p) (p_dy p) (p_w p) (p_h p) (p_dir p) (p_grounded p)
    (p_jumping p) (p_wantsJump p) (p_coyote p) (p_invuln p) (p_animTimer p)
    (p_frame p) (p_dead p) v (p_lives p).
Definition set_lives (v : Z) (p : Player) : Player :=
  mkPlayer (p_x p) (p_y p) (p_dx p) (p_dy p) (p_w p) (p_h p) (p_dir p) (p_grounded p)
    (p_jumping p) (p_wantsJump p) (p_coyote p) (p_invuln p) (p_animTimer p)
    (p_frame p) (p_dead p) (p_respawnTimer p) (Some v).

Definition set_e_x (v : num) (e : Enemy) : Enemy :=
  mkEnemy v (e_y e) (e_dx e) (e_dy e) (e_w e) (e_h e) (e_dead e) (e_patrolRange e).
Definition set_e_dx (v : num) (e : Enemy) : Enemy :=
  mkEnemy (e_x e) (e_y e) v (e_dy e) (e_w e) (e_h e) (e_dead e) (e_patrolRange e).
Definition set_e_dead (v : bool) (e : Enemy) : Enemy :=
  mkEnemy (e_x e) (e_y e) (e_dx e) (e_dy e) (e_w e) (e_h e) v (e_patrolRange e).
Definition set_c_collected (v : bool) (c : Coin) : Coin :=
  mkCoin (c_x c) (c_y c) (c_r c) v.

Definition getPlayerRect (p : Player) : Rect :=
  mkRect (p_x p) (p_y p) (p_w p) (p_h p).
Definition getEntityRect (e : Enemy) : Rect :=
  mkRect (e_x e) (e_y e) (e_w e) (e_h e).

(** The level grid is a parameter here; [mkInitialGameState] of the
    source is this function at [level1]. *)
Definition mkInitialGameStateOf (lvl : Level) : GameState :=
  let sp := findSpawns lvl in
  let pxy := tile2px (ofZ (tpx (sp_player sp))) (ofZ (tpy (sp_player sp))) in
  {| level := lvl;
     player := {|
       p_x := fst pxy; p_y := (snd pxy - TILE_SIZE)%num;
       p_dx := ofZ 0; p_dy := ofZ 0;
       p_w := ofZ 18; p_h := ofZ 22;
       p_dir := 1;
       p_grounded := false;
       p_jumping := false;
       p_wantsJump := false;
       p_coyote := ofZ 0;
       p_invuln := ofZ 0;
       p_animTimer := ofZ 0;
       p_frame := ofZ 0;
       p_dead := false;
       p_respawnTimer := ofZ 0;
       p_lives := None |};
     camera := mkCamera (ofZ 0) (ofZ 0);
     enemies :=
       map (fun t =>
              {| e_x := fst (tile2px (ofZ (tpx t)) (ofZ (tpy t)));
                 e_y := snd (tile2px (ofZ (tpx t)) (ofZ (tpy t)));
                 e_dx := PHYS.enemyPatrolSpeed; e_dy := ofZ 0;
                 e_w := ofZ 20; e_h := ofZ 18;
                 e_dead := false;
                 e_patrolRange :=
                   mkPatrol (fst (tile2px (ofZ (tpx t - 2)) (ofZ 0)))
                            (fst (tile2px (ofZ (tpx t + 2)) (ofZ 0))) |})
           (sp_enemies sp);
     coins :=
       map (fun t =>
              {| c_x := (fst (tile2px (ofZ (tpx t)) (ofZ (tpy t))) + ofZ 6)%num;
                 c_y := (snd (tile2px (ofZ (tpx t)) (ofZ (tpy t))) + ofZ 5)%num;
                 c_r := ofZ 6;
                 c_collected := false |})
           (findCoins lvl);
     collectedCoins := [];
     score := 0;
     lives := initialLives;
     win := false;
     timer := ofZ 0;
     started := true |}.

Definition mkInitialGameState : GameState := mkInitialGameStateOf level1.

(* ================================================================== *)
(** ** Game.js: collision helpers *)

(** [getTile(level, px, py)]: air outside the declared bounds, else the
    unguarded [level.tiles[y][x]], which throws when row [y] is absent
    (also when [y] is [NaN], which passes every bound test). *)
Definition getTile (lvl : Level) (px py : num) : result tile :=
  let '(x, y) := px2tile px py in
  if (x <? ofZ 0)%num || (x >=? ofZ (width lvl))%num ||
     (y <? ofZ 0)%num || (y >=? ofZ (height lvl))%num
  then Ok (Some 0%Z)
  else match arrGet (tiles lvl) y with
       | None => TypeError
       | Some row => Ok (arrGet row x)
       end.

(** [level.tiles[ty]?.[tx]]. *)
Definition tileOpt (lvl : Level) (ty tx : num) : tile :=
  match arrGet (tiles lvl) ty with
  | None => None
  | Some row => arrGet row tx
  end.

(** The body of the [for (ty = tyTop; ty <= tyBot; ++ty)] loop of
    [tryPlayerMoveX]: every round probes the same point, the first solid
    probe snaps the box, zeroes [dx] and leaves the loop. *)
Fixpoint moveXLoop (lvl : Level) (p np : Player) (tx : num) (tys : list num)
  : result Player :=
  match tys with
  | [] => Ok np
  | _ :: rest =>
      t <- getTile lvl
             (p_x np + (if (p_dx np >? ofZ 0)%num then p_w np else ofZ 0))%num
             (p_y np + p_h p / ofZ 2)%num ;;
      if isSolid t
      then Ok (set_dx (ofZ 0)
                 (set_x (if (p_dx p >? ofZ 0)%num
                         then (tx * TILE_SIZE - p_w np)%num
                         else ((tx + ofZ 1) * TILE_SIZE)%num) np))
      else moveXLoop lvl p np tx rest
  end.

Definition tryPlayerMoveX (lvl : Level) (p : Player) (dt : num) : result Player :=
  let np := set_x (p_x p + p_dx p * dt)%num p in
  let tx := if (p_dx np >? ofZ 0)%num
            then Math_floor ((p_x np + p_w np) / TILE_SIZE)
            else Math_floor (p_x np / TILE_SIZE) in
  let tyTop := Math_floor (p_y np / TILE_SIZE) in
  let tyBot := Math_floor ((p_y np + p_h np - ofZ 1) / TILE_SIZE) in
  moveXLoop lvl p np tx (forRange tyTop tyBot).

(** One round of the downward loop of [tryPlayerMoveY]. *)
Definition landOn (lvl : Level) (tyBot : num) (np : Player) (tx : num) : Player :=
  let t := tileOpt lvl tyBot tx in
  if isGround t || isPlatform t
  then set_coyote PHYS.coyoteMs
         (set_grounded true
            (set_dy (ofZ 0) (set_y (tyBot * TILE_SIZE - p_h np)%num np)))
  else np.

(** One round of the upward loop of [tryPlayerMoveY]. *)
Definition bumpOn (lvl : Level) (tyTop : num) (np : Player) (tx : num) : Player :=
  let t := tileOpt lvl tyTop tx in
  if isSolid t
  then set_dy (ofZ 0) (set_y ((tyTop + ofZ 1) * TILE_SIZE)%num np)
  else np.

Definition tryPlayerMoveY (lvl : Level) (p : Player) (dt : num) : Player :=
  let np := set_grounded false (set_y (p_y p + p_dy p * dt)%num p) in
  let np :=
    if (p_dy p >=? ofZ 0)%num
    then
      let txLeft := Math_floor (p_x np / TILE_SIZE) in
      let txRight := Math_floor ((p_x np + p_w np - ofZ 1) / TILE_SIZE) in
      let tyBot := Math_floor ((p_y np + p_h np) / TILE_SIZE) in
      fold_left (landOn lvl tyBot) (forRange txLeft txRight) np
    else np in
  if (p_dy p <? ofZ 0)%num
  then
    let txLeft := Math_floor (p_x np / TILE_SIZE) in
    let txRight := Math_floor ((p_x np + p_w np - ofZ 1) / TILE_SIZE) in
    let tyTop := Math_floor (p_y np / TILE_SIZE) in
    fold_left (bumpOn lvl tyTop) (forRange txLeft txRight) np
  else np.

Definition circleBoxCollide (cx cy cr : num) (rect : Rect) : bool :=
  let testX := clamp cx (rx rect) (rx rect + rw rect)%num in
  let testY := clamp cy (ry rect) (ry rect + rh rect)%num in
  let distX := (cx - testX)%num in
  let distY := (cy - testY)%num in
  (distX * distX + distY * distY <? cr * cr + lit 5 10)%num.

(* ================================================================== *)
(** ** Game.js: the passes of [stepGame] *)

(** The pressed-key map [keys.current], read for truthiness. *)
Definition Keys : Type := string -> bool.

Definition keyLeft (keys : Keys) : bool := keys "ArrowLeft"%string || keys "KeyA"%string.
Definition keyRight (keys : Keys) : bool := keys "ArrowRight"%string || keys "KeyD"%string.
Definition keyUp (keys : Keys) : bool := keys "ArrowUp"%string || keys "Space"%string.

Section WithPow.

(** [Math.pow] of the host, used for the friction factor only. *)
Variable Math_pow : num -> num -> num.

(** Block 1 of [stepGame] up to the jump logic, one definition per
    commented paragraph of the source, in the order of the source. *)

(* Move *)
Definition applyMove (keys : Keys) (dt : num) (p : Player) : Player :=
  if keyLeft keys
  then set_dir (-1) (set_dx (p_dx p - PHYS.moveAccel * dt)%num p)
  else if keyRight keys
  then set_dir 1 (set_dx (p_dx p + PHYS.moveAccel * dt)%num p)
  else p.

(* Friction *)
Definition applyFriction (dt : num) (p : Player) : Player :=
  set_dx (p_dx p *
          (if p_grounded p
           then Math_pow PHYS.frictionGround (dt * ofZ 60)%num
           else Math_pow PHYS.frictionAir (dt * ofZ 60)%num))%num p.

(* Clamp max speed *)
Definition clampSpeed (p : Player) : Player :=
  set_dx (clamp (p_dx p) (- PHYS.maxDX)%num PHYS.maxDX) p.

(* Gravity *)
Definition applyGravity (dt : num) (p : Player) : Player :=
  if negb (p_grounded p)
  then set_dy (p_dy p + PHYS.gravity * dt)%num p else p.

(* Clamp fall speed *)
Definition clampFall (p : Player) : Player :=
  set_dy (clamp (p_dy p) (- PHYS.maxDY)%num PHYS.maxDY) p.

(* Coyote time for jump leniency after walking off edge *)
Definition coyoteTime (dt : num) (p : Player) : Player :=
  set_coyote
    (if p_grounded p || (p_coyote p >? ofZ 0)%num
     then PHYS.coyoteMs
     else Math_max (p_coyote p - dt * ofZ 1000)%num (ofZ 0)) p.

(* Jump logic *)
Definition jumpTriggers (wantsJump : bool) (p : Player) : bool :=
  wantsJump && negb (p_jumping p) &&
  (p_grounded p || (p_coyote p >? ofZ 0)%num).

Definition jumpLogic (wantsJump : bool) (p : Player) : Player :=
  let p :=
    if jumpTriggers wantsJump p
    then set_coyote (ofZ 0)
           (set_jumping true
              (set_grounded false (set_dy (- PHYS.jumpVel)%num p)))
    else p in
  if negb wantsJump then set_jumping false p else p.

Definition playerPhysics (keys : Keys) (dt : num) (p : Player) : Player :=
  let wantsJump := keyUp keys in
  jumpLogic wantsJump
    (coyoteTime dt
       (clampFall
          (applyGravity dt
             (clampSpeed (applyFriction dt (applyMove keys dt p)))))).

(** The animation update at the end of block 1. *)
Definition updateAnim (dt : num) (p : Player) : Player :=
  let p := set_animTimer (p_animTimer p + dt)%num p in
  if (Math_abs (p_dx p) >? ofZ 12)%num
  then set_frame (nmod (Math_floor (p_animTimer p * ofZ 8)%num) 2) p
  else set_frame (ofZ 0) p.

(** Block 1 as a whole: the player after input, physics, both sweeps
    and the animation update ([movedY] of the source). *)
Definition movePlayer (lvl : Level) (keys : Keys) (dt : num) (p : Player)
  : result Player :=
  movedX <- tryPlayerMoveX lvl (playerPhysics keys dt p) dt ;;
  Ok (updateAnim dt (tryPlayerMoveY lvl movedX dt)).

End WithPow.

(** Block 2: one enemy of [st.enemies.map]. *)
Definition stepEnemy (lvl : Level) (dt : num) (e : Enemy) : result Enemy :=
  if e_dead e then Ok e
  else
    let ex := set_e_dx (clamp (e_dx e) (- PHYS.enemyPatrolSpeed)%num
                          PHYS.enemyPatrolSpeed) e in
    let ex := set_e_x (e_x ex + e_dx ex * dt)%num ex in
    let ex :=
      if (e_x ex <? pr_min (e_patrolRange ex))%num
      then set_e_dx (Math_abs (e_dx ex)) (set_e_x (pr_min (e_patrolRange ex)) ex)
      else if (e_x ex >? pr_max (e_patrolRange ex))%num
      then set_e_dx (- Math_abs (e_dx ex))%num
             (set_e_x (pr_max (e_patrolRange ex)) ex)
      else ex in
    below <- getTile lvl (e_x ex + e_w ex / ofZ 2)%num
                         (e_y ex + e_h ex + ofZ 1)%num ;;
    if negb (isGround below)
    then Ok (set_e_dx (- e_dx ex)%num ex)
    else Ok ex.

(** Block 3: what the loop over [newEnemies] has produced when it ends. *)
Record EnemyPass : Type := mkEnemyPass {
  ep_player : Player;          (* movedY *)
  ep_enemies : list Enemy;     (* newEnemies *)
  ep_stomped : list nat;       (* stompedEnemies *)
  ep_playerDied : bool         (* playerDied *)
}.

(** The stomp test of the source on an overlapping enemy. *)
Definition isStomp (pl : Player) (e : Enemy) : bool :=
  (p_dy pl >? ofZ 30)%num &&
  (p_y pl + p_h pl - ofZ 6 <? e_y e + ofZ 8)%num &&
  (p_y pl <? e_y e)%num.

Definition stompBounce (pl : Player) : Player :=
  set_grounded false (set_dy (- PHYS.jumpVel * lit 7 10)%num pl).

Definition sideHit (stLives : Z) (pl : Player) : Player :=
  set_invuln PHYS.invulnMs
    (set_respawnTimer (lit 9 10)
       (set_dead true (set_lives (stLives - 1) pl))).

(** [for (i = 0; i < newEnemies.length; ++i)], from index [i] on, the
    enemies still to visit being [es]. *)
Fixpoint enemyLoop (stLives : Z) (i : nat) (es : list Enemy) (pl : Player)
  : EnemyPass :=
  match es with
  | [] => mkEnemyPass pl [] [] false
  | e :: rest =>
      let skip :=
        let r := enemyLoop stLives (S i) rest pl in
        mkEnemyPass (ep_player r) (e :: ep_enemies r) (ep_stomped r)
          (ep_playerDied r) in
      if e_dead e then skip
      else if rectsCollide (getPlayerRect pl) (getEntityRect e)
      then
        if isStomp pl e
        then
          let r := enemyLoop stLives (S i) rest (stompBounce pl) in
          mkEnemyPass (ep_player r) (set_e_dead true e :: ep_enemies r)
            (i :: ep_stomped r) (ep_playerDied r)
        else if (p_invuln pl <=? ofZ 0)%num
        then mkEnemyPass (sideHit stLives pl) (e :: rest) [] true
        else skip
      else skip
  end.

(** Block 4: what the loop over [coins] has produced when it ends. *)
Record CoinPass : Type := mkCoinPass {
  cp_coins : list Coin;        (* coins *)
  cp_picked : list nat;        (* the indices pushed on collectedCoins *)
  cp_scoreInc : Z              (* scoreInc *)
}.

Definition coinHit (rect : Rect) (c : Coin) : bool :=
  negb (c_collected c) && circleBoxCollide (c_x c) (c_y c) (c_r c) rect.

Fixpoint coinLoop (rect : Rect) (i : nat) (cs : list Coin) : CoinPass :=
  match cs with
  | [] => mkCoinPass [] [] 0
  | c :: rest =>
      let r := coinLoop rect (S i) rest in
      if coinHit rect c
      then mkCoinPass (set_c_collected true c :: cp_coins r)
             (i :: cp_picked r) (cp_scoreInc r + 10)
      else mkCoinPass (c :: cp_coins r) (cp_picked r) (cp_scoreInc r)
  end.

(** Block 5: the tile under the centre of the player. *)
Definition flagProbe (lvl : Level) (pl : Player) : result bool :=
  t <- getTile lvl (p_x pl + p_w pl / ofZ 2)%num (p_y pl + p_h pl / ofZ 2)%num ;;
  Ok (isFlag t).

(** Block 6: death, respawn and the invulnerability countdown. *)
Definition respawnAtStart (lvl : Level) (pl : Player) : Player :=
  let sp := sp_player (findSpawns lvl) in
  let xy := tile2px (ofZ (tpx sp)) (ofZ (tpy sp)) in
  set_invuln PHYS.invulnMs
    (set_dead false
       (set_grounded false
          (set_dir 1
             (set_dy (ofZ 0)
                (set_dx (ofZ 0)
                   (set_y (snd xy - TILE_SIZE)%num (set_x (fst xy) pl))))))).

Definition deathRespawn (lvl : Level) (dt : num) (pl : Player) : Player :=
  if p_dead pl
  then
    let pl := set_invuln PHYS.invulnMs pl in
    let pl := set_respawnTimer (p_respawnTimer pl - dt)%num pl in
    if (p_respawnTimer pl <=? ofZ 0)%num then respawnAtStart lvl pl else pl
  else if (p_invuln pl >? ofZ 0)%num
  then
    let pl := set_invuln (p_invuln pl - dt * ofZ 1000)%num pl in
    if (p_invuln pl <? ofZ 0)%num then set_invuln (ofZ 0) pl else pl
  else pl.

Definition clampToWorld (lvl : Level) (pl : Player) : Player :=
  let pl := set_x (clamp (p_x pl) (ofZ 0)
                     (ofZ (width lvl) * TILE_SIZE - p_w pl)%num) pl in
  set_y (clamp (p_y pl) (ofZ 0)
           ((ofZ (height lvl) - ofZ 1) * TILE_SIZE - p_h pl)%num) pl.

(** Block 7. *)
Definition followCamera (lvl : Level) (pl : Player) : Camera :=
  mkCamera
    (clamp (p_x pl + p_w pl / ofZ 2 - GAME_WIDTH / ofZ 2)%num (ofZ 0)
       (ofZ (width lvl) * TILE_SIZE - GAME_WIDTH)%num)
    (ofZ 0).

(** [movedY.lives ?? st.lives]. *)
Definition livesOr (pl : Player) (stLives : Z) : Z :=
  match p_lives pl with Some l => l | None => stLives end.

Section Step.

Variable Math_pow : num -> num -> num.

(** The main game advance step. *)
Definition stepGame (prev : GameState) (keys : Keys) (dt : num)
  : result GameState :=
  let lvl := level prev in
  movedY <- movePlayer Math_pow lvl keys dt (player prev) ;;
  newEnemies <- mapM (stepEnemy lvl dt) (enemies prev) ;;
  let ep := enemyLoop (lives prev) 0 newEnemies movedY in
  let movedY := ep_player ep in
  let cp := coinLoop (getPlayerRect movedY) 0 (coins prev) in
  win <- flagProbe lvl movedY ;;
  let scoreInc := (cp_scoreInc cp + if win then 100 else 0)%Z in
  let movedY := clampToWorld lvl (deathRespawn lvl dt movedY) in
  Ok {| level := lvl;
        player := movedY;
        camera := followCamera lvl movedY;
        enemies := ep_enemies ep;
        coins := cp_coins cp;
        collectedCoins := (collectedCoins prev ++ cp_picked cp)%list;
        score := (score prev + scoreInc
                  + Z.of_nat (List.length (ep_stomped ep)) * 50)%Z;
        lives := livesOr movedY (lives prev);
        win := win;
        timer := (timer prev + dt)%num;
        started := started prev |}.

(** The states a session can be in: the initial one and every state a
    frame produces from one of them. *)
Inductive reachable : GameState -> Prop :=
| reach_init : reachable mkInitialGameState
| reach_step st keys dt st' :
    reachable st -> stepGame st keys dt = Ok st' -> reachable st'.

(** A run of frames, one [(keys, dt)] per frame. *)
Fixpoint runFrames (st : GameState) (frames : list (Keys * num))
  : result GameState :=
  match frames with
  | [] => Ok st
  | (keys, dt) :: rest => st' <- stepGame st keys dt ;; runFrames st' rest
  end.

End Step.

(* ================================================================== *)
(** ** A rational stand-in for [Math.pow] and concrete inputs

    Every theorem below holds for an arbitrary [Math_pow]; the stand-in
    (exact at integer exponents, linear in between) only serves to run
    the model on concrete states. *)

Definition pow_interp (b e : num) : num :=
  match b, e with
  | Fin x, Fin y =>
      let n := Qfloor y in
      Fin (Qred (Qpower x n * (1 + (y - inject_Z n) * (x - 1))))
  | _, _ => NaN
  end.

Definition noKeys : Keys := fun _ => false.
Definition jumpKey : Keys := fun k => String.eqb k "Space".

(** One frame at 64 Hz, a value [frameDt] lets through unchanged. *)
Definition dt64 : num := lit 1 64.

Definition withPlayer (pl : Player) (st : GameState) : GameState :=
  mkGameState (level st) pl (camera st) (enemies st) (coins st)
    (collectedCoins st) (score st) (lives st) (win st) (timer st) (started st).

(** The player of the initial state put at [(x, y)] with vertical
    velocity [dy]. *)
Definition playerAt (x y dy : Z) (grounded : bool) : Player :=
  set_grounded grounded
    (set_dy (ofZ dy) (set_y (ofZ y) (set_x (ofZ x) (player mkInitialGameState)))).

(* ================================================================== *)
(** ** Vocabulary of the statements and further concrete inputs *)

(** Fields of the player that the enemy pass never assigns. *)
Definition sameBody (p q : Player) : Prop :=
  p_x q = p_x p /\ p_y q = p_y p /\ p_w q = p_w p /\ p_h q = p_h p /\
  p_dx q = p_dx p /\ p_coyote q = p_coyote p /\ p_jumping q = p_jumping p.

(** Fields of the player that input, physics and the two sweeps never
    assign. *)
Definition sameVitals (p q : Player) : Prop :=
  p_lives q = p_lives p /\ p_invuln q = p_invuln p /\ p_dead q = p_dead p /\
  p_respawnTimer q = p_respawnTimer p /\ p_w q = p_w p /\ p_h q = p_h p.

Ltac vitals_by_cases :=
  repeat match goal with
         | |- context [if ?c then _ else _] => destruct c
         end;
  unfold sameVitals; simpl; tauto.

(** The state the [return] of [stepGame] builds from what the passes
    produced. *)
Definition finishStep (prev : GameState) (dt : num) (ep : EnemyPass)
  (flag : bool) : GameState :=
  let cp := coinLoop (getPlayerRect (ep_player ep)) 0 (coins prev) in
  let pl := clampToWorld (level prev)
              (deathRespawn (level prev) dt (ep_player ep)) in
  {| level := level prev;
     player := pl;
     camera := followCamera (level prev) pl;
     enemies := ep_enemies ep;
     coins := cp_coins cp;
     collectedCoins := (collectedCoins prev ++ cp_picked cp)%list;
     score := (score prev + (cp_scoreInc cp + if flag then 100 else 0)
               + Z.of_nat (List.length (ep_stomped ep)) * 50)%Z;
     lives := livesOr pl (lives prev);
     win := flag;
     timer := (timer prev + dt)%num;
     started := started prev |}.

(** Blocks 1 to 3 of a step: the outcome of the enemy pass. *)
Definition enemyPassOf (pow : num -> num -> num) (st : GameState)
  (keys : Keys) (dt : num) : result EnemyPass :=
  movedY <- movePlayer pow (level st) keys dt (player st) ;;
  newEnemies <- mapM (stepEnemy (level st) dt) (enemies st) ;;
  Ok (enemyLoop (lives st) 0 newEnemies movedY).

(** The [lives] property cached on the player object, when present,
    agrees with the [lives] of the state. *)
Definition livesCoherent (st : GameState) : Prop :=
  p_lives (player st) = None \/ p_lives (player st) = Some (lives st).

(** Case analysis on every test of a conditional in the goal. *)
Ltac case_ifs :=
  repeat match goal with
         | |- context [if ?c then _ else _] => destruct c eqn:?; simpl
         end.

Definition withLives (l : Z) (st : GameState) : GameState :=
  mkGameState (level st) (player st) (camera st) (enemies st) (coins st)
    (collectedCoins st) (score st) l (win st) (timer st) (started st).

(** The last life already lost, the player standing on the ground next
    to the enemy that started at tile (9, 7). *)
Definition stLastLifeGone : GameState :=
  withLives 0
    (withPlayer (set_lives 0 (playerAt 210 170 0 true)) mkInitialGameState).

(** The range the specification asks of the time delta of a step. *)
Definition inValidRange (dt : num) : bool :=
  (ofZ 0 <=? dt)%num && (dt <=? maxDt)%num.

(** The horizontal sweep in closed form: where the box goes when nothing
    is in the way, the point it probes, where it is snapped to, and the
    rows the loop of the source ranges over. *)
Definition slideX (p : Player) (dt : num) : Player :=
  set_x (p_x p + p_dx p * dt)%num p.

Definition probeX (lvl : Level) (p : Player) (dt : num) : result tile :=
  let np := slideX p dt in
  getTile lvl (p_x np + (if (p_dx np >? ofZ 0)%num then p_w np else ofZ 0))%num
    (p_y np + p_h p / ofZ 2)%num.

Definition snapX (p : Player) (dt : num) : Player :=
  let np := slideX p dt in
  let tx := if (p_dx np >? ofZ 0)%num
            then Math_floor ((p_x np + p_w np) / TILE_SIZE)
            else Math_floor (p_x np / TILE_SIZE) in
  set_dx (ofZ 0)
    (set_x (if (p_dx p >? ofZ 0)%num
            then (tx * TILE_SIZE - p_w np)%num
            else ((tx + ofZ 1) * TILE_SIZE)%num) np).

Definition rowsX (p : Player) (dt : num) : list num :=
  let np := slideX p dt in
  forRange (Math_floor (p_y np / TILE_SIZE))
    (Math_floor ((p_y np + p_h np - ofZ 1) / TILE_SIZE)).

(** The vertical sweep in closed form. *)
Definition fallY (p : Player) (dt : num) : Player :=
  set_grounded false (set_y (p_y p + p_dy p * dt)%num p).

Definition columnsY (p : Player) (dt : num) : list num :=
  let np := fallY p dt in
  forRange (Math_floor (p_x np / TILE_SIZE))
    (Math_floor ((p_x np + p_w np - ofZ 1) / TILE_SIZE)).

Definition rowBelow (p : Player) (dt : num) : num :=
  let np := fallY p dt in Math_floor ((p_y np + p_h np) / TILE_SIZE).

Definition rowAbove (p : Player) (dt : num) : num :=
  let np := fallY p dt in Math_floor (p_y np / TILE_SIZE).

(** What a round of the downward, of the upward loop assigns when its
    tile test succeeds. *)
Definition landOn_hit (tyBot : num) (np : Player) : Player :=
  set_coyote PHYS.coyoteMs
    (set_grounded true
       (set_dy (ofZ 0) (set_y (tyBot * TILE_SIZE - p_h np)%num np))).

Definition bumpOn_hit (tyTop : num) (np : Player) : Player :=
  set_dy (ofZ 0) (set_y ((tyTop + ofZ 1) * TILE_SIZE)%num np).

Definition landY (p : Player) (dt : num) : Player :=
  landOn_hit (rowBelow p dt) (fallY p dt).

Definition bumpY (p : Player) (dt : num) : Player :=
  bumpOn_hit (rowAbove p dt) (fallY p dt).

(** The tiles that stop a fall, and those that stop sideways and upward
    motion, by tile code. *)
Definition stopsFall (t : tile) : bool := tileIs 1 t || tileIs 2 t.
Definition stopsSweep (t : tile) : bool := tileIs 1 t || tileIs 2 t || tileIs 5 t.

(** A player walking right on the ground towards the platform tile
    (4, 7), and one rising under the platform tile (3, 3). *)
Definition pWalksIntoPlatform : Player :=
  set_dx (ofZ 128) (playerAt 77 170 0 true).
Definition pRisesUnderPlatform : Player := playerAt 74 97 (-128) false.

(** Well-formed level data in the words of the specification: every
    row as wide as declared and as many rows as declared, and a tile at
    the player spawn. *)
Definition rowsMatchDeclared (lvl : Level) : bool :=
  forallb (fun row => Z.of_nat (List.length row) =? width lvl)%Z (tiles lvl) &&
  (Z.of_nat (List.length (tiles lvl)) =? height lvl)%Z.

Definition hasSpawnTile (lvl : Level) : bool :=
  match tileOpt lvl (ofZ (tpy (sp_player (findSpawns lvl))))
          (ofZ (tpx (sp_player (findSpawns lvl)))) with
  | Some _ => true
  | None => false
  end.

(** Two rows where three are declared, the second two tiles wide where
    four are declared, and no row 5 for the player to start in. *)
Definition raggedLevel : Level :=
  {| name := "ragged"; width := 4; height := 3;
     tiles := [[0; 0; 0; 4]; [1; 3]]%Z |}.

Definition countDead (es : list Enemy) : nat := List.length (filter e_dead es).

Definition withEnemies (es : list Enemy) (st : GameState) : GameState :=
  mkGameState (level st) (player st) (camera st) es (coins st)
    (collectedCoins st) (score st) (lives st) (win st) (timer st) (started st).

Definition enemyAt (x y : Z) : Enemy :=
  mkEnemy (ofZ x) (ofZ y) PHYS.enemyPatrolSpeed (ofZ 0) (ofZ 20) (ofZ 18) false
    (mkPatrol (ofZ (x - 48)) (ofZ (x + 48))).

(** The player falling onto two enemies that stand on the same spot. *)
Definition stTwoEnemies : GameState :=
  withEnemies [enemyAt 216 168; enemyAt 216 168]
    (withPlayer (playerAt 216 150 100 false) mkInitialGameState).

Definition withWin (b : bool) (st : GameState) : GameState :=
  mkGameState (level st) (player st) (camera st) (enemies st) (coins st)
    (collectedCoins st) (score st) (lives st) b (timer st) (started st).

(** The player at rest on the ground with its centre in the flag tile
    (31, 7) and its left edge in the air tile before it. *)
Definition stAtFlag : GameState :=
  withPlayer (playerAt 740 170 0 true) mkInitialGameState.

(** The states after one and after two idle frames on the flag. *)
Definition stAtFlag1 : GameState :=
  Eval vm_compute in
    match stepGame pow_interp stAtFlag noKeys dt64 with
    | Ok s => s
    | TypeError => stAtFlag
    end.

Definition stAtFlag2 : GameState :=
  Eval vm_compute in
    match stepGame pow_interp stAtFlag1 noKeys dt64 with
    | Ok s => s
    | TypeError => stAtFlag1
    end.

(** The player standing on the ground next to the enemy that started
    at tile (9, 7), with all three lives. *)
Definition stSideHit : GameState :=
  withPlayer (playerAt 210 170 0 true) mkInitialGameState.



(** Every index on [collectedCoins] is there once and names a coin
    whose [collected] flag is set. *)
Definition coinsInv (st : GameState) : Prop :=
  NoDup (collectedCoins st) /\
  forall i, In i (collectedCoins st) ->
            exists c, nth_error (coins st) i = Some c /\ c_collected c = true.

Definition withCoins (cs : list Coin) (collected : list nat) (sc : Z)
  (st : GameState) : GameState :=
  mkGameState (level st) (player st) (camera st) (enemies st) cs
    collected sc (lives st) (win st) (timer st) (started st).

(** Three coins on the player at the start tile, the first one
    collected before. *)
Definition stThreeCoins : GameState :=
  withCoins [mkCoin (ofZ 30) (ofZ 101) (ofZ 6) true;
             mkCoin (ofZ 30) (ofZ 101) (ofZ 6) false;
             mkCoin (ofZ 36) (ofZ 110) (ofZ 6) false]
    [0%nat] 10 mkInitialGameState.

(** A jump is available: the player is grounded or the coyote timer is
    positive. *)
Definition jumpArmed (p : Player) : bool :=
  p_grounded p || (p_coyote p >? ofZ 0)%num.

(** The player of the initial state one tick after it walked off a
    ledge: airborne, coyote timer armed. *)
Definition stOffLedge : GameState :=
  withPlayer (set_coyote PHYS.coyoteMs (playerAt 24 40 0 false)) mkInitialGameState.

(** A number other than [NaN]. *)
Definition isFin (a : num) : bool :=
  match a with Fin _ => true | NaN => false end.

(** [Math.pow] maps numbers to numbers. *)
Definition powFinite (pow : num -> num -> num) : Prop :=
  forall a b, isFin a = true -> isFin b = true -> isFin (pow a b) = true.


Definition finEnemy (e : Enemy) : bool :=
  isFin (e_x e) && isFin (e_y e) && isFin (e_dx e) && isFin (e_w e) &&
  isFin (e_h e) && isFin (pr_min (e_patrolRange e)) &&
  isFin (pr_max (e_patrolRange e)).



(* ================================================================== *)
(** ** Game.js: fitting the canvas to the window

    The callback the component passes to [useResize]: the largest whole
    scale the window takes, and the canvas size at that scale. *)

Record CanvasDim : Type := mkCanvasDim {
  cd_width : num; cd_height : num; cd_scale : num
}.

Definition fitCanvas (width height : num) : CanvasDim :=
  let scale :=
    Math_min (Math_max (Math_floor (width / GAME_WIDTH)) (ofZ 1))
             (Math_floor (height / GAME_HEIGHT)) in
  let w := Math_floor (GAME_WIDTH * scale)%num in
  let h := Math_floor (GAME_HEIGHT * scale)%num in
  mkCanvasDim w h scale.

(* ================================================================== *)
(** ** useGameLoop.js: the key map of [useKeyboard]

    [on] and [off], the listeners for keydown and keyup, assign [true]
    and [false] to the entry of the code of the event. *)

Definition keyOn (code : string) (keys : Keys) : Keys :=
  fun k => if String.eqb k code then true else keys k.

Definition keyOff (code : string) (keys : Keys) : Keys :=
  fun k => if String.eqb k code then false else keys k.

Inductive KeyEvent : Type :=
| KeyDown : string -> KeyEvent
| KeyUp : string -> KeyEvent.

Definition keyEvent (keys : Keys) (ev : KeyEvent) : Keys :=
  match ev with
  | KeyDown code => keyOn code keys
  | KeyUp code => keyOff code keys
  end.

(** The map after the events [evs], in the order they arrived. *)
Definition keyEvents (keys : Keys) (evs : list KeyEvent) : Keys :=
  fold_left keyEvent evs keys.

(* ================================================================== *)
(** ** Vocabulary of the further properties *)

(** The same number: both [NaN], or equal rationals. *)
Definition nsame (a b : num) : Prop :=
  match a, b with
  | Fin x, Fin y => (x == y)%Q
  | NaN, NaN => True
  | _, _ => False
  end.

(** [a <= b] and [a < b] on numbers, false when one is [NaN]. *)
Definition nleP (a b : num) : Prop := (a <=? b)%num = true.
Definition nltP (a b : num) : Prop := (a <? b)%num = true.

(** The point [(x, y)] lies in the tile with indices [(tx, ty)]. *)
Definition inTile (x y : Q) (tx ty : Z) : Prop :=
  (inject_Z (24 * tx) <= x)%Q /\ (x < inject_Z (24 * tx + 24))%Q /\
  (inject_Z (24 * ty) <= y)%Q /\ (y < inject_Z (24 * ty + 24))%Q.

(** Tile indices inside the declared bounds of a level. *)
Definition inBounds (lvl : Level) (tx ty : Z) : Prop :=
  (0 <= tx < width lvl)%Z /\ (0 <= ty < height lvl)%Z.

(** The patrol window of an enemy is not empty. *)
Definition patrolOk (e : Enemy) : Prop :=
  nleP (pr_min (e_patrolRange e)) (pr_max (e_patrolRange e)).

(** What a step does to one enemy [e], giving [e']: height, size and
    patrol window are kept; a dead enemy is carried over as it is; a
    live one ends inside its window, at patrol speed at most. *)
Definition enemyKept (e e' : Enemy) : Prop :=
  e_y e' = e_y e /\ e_dy e' = e_dy e /\ e_w e' = e_w e /\ e_h e' = e_h e /\
  e_patrolRange e' = e_patrolRange e /\
  (if e_dead e
   then e' = e
   else nleP (pr_min (e_patrolRange e)) (e_x e') /\
        nleP (e_x e') (pr_max (e_patrolRange e)) /\
        nleP (- PHYS.enemyPatrolSpeed)%num (e_dx e') /\
        nleP (e_dx e') PHYS.enemyPatrolSpeed).



(** A dead player has the invulnerability timer at its full value. *)
Definition deadInvuln (st : GameState) : Prop :=
  p_dead (player st) = true -> p_invuln (player st) = PHYS.invulnMs.

(** The player of block 1 at the jump test, and whether the test
    succeeds in the step from [st]. *)
Definition beforeJump (pow : num -> num -> num) (keys : Keys) (dt : num)
  (p : Player) : Player :=
  coyoteTime dt
    (clampFall
       (applyGravity dt
          (clampSpeed (applyFriction pow dt (applyMove keys dt p))))).

Definition jumpsNow (pow : num -> num -> num) (st : GameState)
  (keys : Keys) (dt : num) : bool :=
  jumpTriggers (keyUp keys) (beforeJump pow keys dt (player st)).

(** The number of frames of a run in which a jump triggers. *)
Fixpoint jumpCount (pow : num -> num -> num) (st : GameState)
  (frames : list (Keys * num)) : result nat :=
  match frames with
  | [] => Ok 0%nat
  | (keys, dt) :: rest =>
      st' <- stepGame pow st keys dt ;;
      n <- jumpCount pow st' rest ;;
      Ok ((if jumpsNow pow st keys dt then 1 else 0) + n)%nat
  end.

(** The number of tombstoned coins, and what a step does to one coin. *)
Definition countCollected (cs : list Coin) : nat :=
  List.length (filter c_collected cs).

Definition coinKept (c c' : Coin) : Prop :=
  c_x c' = c_x c /\ c_y c' = c_y c /\ c_r c' = c_r c /\
  (c_collected c = true -> c' = c).

(** A player handed to the step with velocities far beyond the limits. *)
Definition stTooFast : GameState :=
  withPlayer (set_dx (ofZ 5000) (playerAt 216 150 (-9000) false))
    mkInitialGameState.

(** The player dead and waiting for the respawn, standing inside the
    enemy that started at tile (9, 7). *)
Definition stDeadOnEnemy : GameState :=
  withLives 2
    (withPlayer
       (set_respawnTimer (lit 1 2)
          (set_invuln PHYS.invulnMs
             (set_dead true (set_lives 2 (playerAt 210 170 0 true)))))
       mkInitialGameState).

(** The player standing on the ground at the start column. *)
Definition stStanding : GameState :=
  withPlayer (playerAt 24 170 0 true) mkInitialGameState.

(** Three frames with the jump key held. *)
Definition heldJump3 : list (Keys * num) :=
  [(jumpKey, dt64); (jumpKey, dt64); (jumpKey, dt64)].

(** Both arrow keys down, and the A key alone. *)
Definition bothArrows : Keys :=
  fun k => String.eqb k "ArrowLeft" || String.eqb k "ArrowRight".
Definition onlyKeyA : Keys := fun k => String.eqb k "KeyA".

(** The last event of [evs] for the key [code]: [Some true] for a
    keydown, [Some false] for a keyup, [None] when there is none. *)
Fixpoint lastEvent (code : string) (evs : list KeyEvent) : option bool :=
  match evs with
  | [] => None
  | ev :: rest =>
      match lastEvent code rest with
      | Some b => Some b
      | None =>
          match ev with
          | KeyDown c => if String.eqb code c then Some true else None
          | KeyUp c => if String.eqb code c then Some false else None
          end
      end
  end.


(* ================================================================== *)
(** ** Facts about numbers *)

Lemma nmul_NaN_r (a : num) : (a * NaN)%num = NaN.
Proof. destruct a; reflexivity. Qed.

Lemma nadd_NaN_r (a : num) : (a + NaN)%num = NaN.
Proof. destruct a; reflexivity. Qed.

Lemma nmul_NaN_r_add (a b : num) : (a + b * NaN)%num = NaN.
Proof. destruct a, b; reflexivity. Qed.

Lemma nadd_NaN_l (a : num) : (NaN + a)%num = NaN.
Proof. reflexivity. Qed.

Lemma ndiv_NaN_l (a : num) : (NaN / a)%num = NaN.
Proof. reflexivity. Qed.

Lemma forRange_NaN_l (b : num) : forRange NaN b = [].
Proof. reflexivity. Qed.

Lemma ngt_true_fin (a b : num) :
  (a >? b)%num = true -> exists x y, a = Fin x /\ b = Fin y /\ (y < x)%Q.
Proof.
  destruct a as [|x], b as [|y]; simpl; try discriminate.
  unfold ngt, nlt, cmp2, Qlt_bool. intros H.
  exists x, y. repeat split.
  apply negb_true_iff in H. apply Qnot_le_lt. intros Hle.
  apply Qle_bool_iff in Hle. congruence.
Qed.

Lemma nle_true_fin (a b : num) :
  (a <=? b)%num = true -> exists x y, a = Fin x /\ b = Fin y /\ (x <= y)%Q.
Proof.
  destruct a as [|x], b as [|y]; simpl; try discriminate.
  unfold nle, cmp2. intros H. exists x, y. repeat split.
  now apply Qle_bool_iff.
Qed.

Lemma ngt_nle_excl (a b : num) : (a >? b)%num = true -> (a <=? b)%num = false.
Proof.
  intros H. destruct (ngt_true_fin _ _ H) as (x & y & -> & -> & Hlt).
  unfold nle, cmp2. apply not_true_is_false. intros Hle.
  apply Qle_bool_iff in Hle. apply (Qlt_not_le _ _ Hlt Hle).
Qed.

(* ================================================================== *)
(** ** Facts about the passes *)

Lemma sameBody_refl (p : Player) : sameBody p p.
Proof. unfold sameBody; tauto. Qed.

Lemma sameBody_trans (p q r : Player) : sameBody p q -> sameBody q r -> sameBody p r.
Proof. unfold sameBody; intuition congruence. Qed.

Lemma enemyLoop_sameBody (stLives : Z) (es : list Enemy) :
  forall i pl, sameBody pl (ep_player (enemyLoop stLives i es pl)).
Proof.
  induction es as [|e rest IH]; intros i pl; simpl.
  - apply sameBody_refl.
  - destruct (e_dead e); simpl; [apply IH|].
    destruct (rectsCollide _ _); simpl; [|apply IH].
    destruct (isStomp pl e); simpl.
    + eapply sameBody_trans; [|apply IH]. unfold sameBody; simpl; tauto.
    + destruct (p_invuln pl <=? ofZ 0)%num; simpl; [|apply IH].
      unfold sameBody; simpl; tauto.
Qed.

(** After a stomp the bounce velocity is upward, so nothing else
    qualifies as a stomp during the same pass. *)
Lemma no_stomp_after_bounce (pl : Player) (e : Enemy) :
  isStomp (stompBounce pl) e = false.
Proof. reflexivity. Qed.

Lemma isStomp_dy (pl ql : Player) (e : Enemy) :
  p_dy ql = p_dy pl -> p_y ql = p_y pl -> p_h ql = p_h pl ->
  isStomp ql e = isStomp pl e.
Proof. unfold isStomp. intros -> -> ->. reflexivity. Qed.



(** The [lives] property of the player object after the pass. *)
Lemma enemyLoop_lives (stLives : Z) (es : list Enemy) :
  forall i pl,
    p_lives (ep_player (enemyLoop stLives i es pl)) =
    if ep_playerDied (enemyLoop stLives i es pl)
    then Some (stLives - 1)%Z else p_lives pl.
Proof.
  induction es as [|e rest IH]; intros i pl; simpl; [reflexivity|].
  destruct (e_dead e); simpl; [apply IH|].
  destruct (rectsCollide _ _); simpl; [|apply IH].
  destruct (isStomp pl e); simpl; [rewrite IH; reflexivity|].
  destruct (p_invuln pl <=? ofZ 0)%num; simpl; [reflexivity|apply IH].
Qed.

Lemma sameVitals_refl (p : Player) : sameVitals p p.
Proof. unfold sameVitals; tauto. Qed.

Lemma sameVitals_trans (p q r : Player) :
  sameVitals p q -> sameVitals q r -> sameVitals p r.
Proof. unfold sameVitals; intuition congruence. Qed.

Lemma fold_left_preserves {A B : Type} (R : A -> A -> Prop) (f : A -> B -> A) :
  (forall a, R a a) ->
  (forall a b c, R a b -> R b c -> R a c) ->
  (forall a b, R a (f a b)) ->
  forall l a, R a (fold_left f l a).
Proof.
  intros Hrefl Htrans Hstep l.
  induction l as [|b l IH]; intros a; simpl; [apply Hrefl|].
  eapply Htrans; [apply Hstep|apply IH].
Qed.

Lemma applyMove_vitals keys dt p : sameVitals p (applyMove keys dt p).
Proof. unfold applyMove. vitals_by_cases. Qed.

Lemma jumpLogic_vitals wantsJump p : sameVitals p (jumpLogic wantsJump p).
Proof. unfold jumpLogic. vitals_by_cases. Qed.

Lemma applyGravity_vitals dt p : sameVitals p (applyGravity dt p).
Proof. unfold applyGravity. vitals_by_cases. Qed.

Lemma playerPhysics_vitals (pow : num -> num -> num) keys dt p :
  sameVitals p (playerPhysics pow keys dt p).
Proof.
  unfold playerPhysics.
  eapply sameVitals_trans; [|apply jumpLogic_vitals].
  eapply sameVitals_trans; [|unfold coyoteTime, clampFall, sameVitals; simpl; tauto].
  eapply sameVitals_trans; [|apply applyGravity_vitals].
  eapply sameVitals_trans; [apply applyMove_vitals|].
  unfold clampSpeed, applyFriction, sameVitals; simpl; tauto.
Qed.

Lemma moveXLoop_vitals lvl p np tx tys q :
  moveXLoop lvl p np tx tys = Ok q -> sameVitals np q.
Proof.
  induction tys as [|ty rest IH]; simpl; intros H.
  - injection H as <-. apply sameVitals_refl.
  - destruct (getTile lvl _ _) as [t|]; simpl in H; [|discriminate].
    destruct (isSolid t); [|now apply IH].
    injection H as <-. unfold sameVitals; simpl; tauto.
Qed.

Lemma tryPlayerMoveX_vitals lvl p dt q :
  tryPlayerMoveX lvl p dt = Ok q -> sameVitals p q.
Proof.
  unfold tryPlayerMoveX. intros H. apply moveXLoop_vitals in H.
  eapply sameVitals_trans; [|exact H]. unfold sameVitals; simpl; tauto.
Qed.

Lemma landOn_vitals lvl ty np tx : sameVitals np (landOn lvl ty np tx).
Proof.
  unfold landOn. destruct (_ || _); [|apply sameVitals_refl].
  unfold sameVitals; simpl; tauto.
Qed.

Lemma bumpOn_vitals lvl ty np tx : sameVitals np (bumpOn lvl ty np tx).
Proof.
  unfold bumpOn. destruct (isSolid _); [|apply sameVitals_refl].
  unfold sameVitals; simpl; tauto.
Qed.

Lemma tryPlayerMoveY_vitals lvl p dt : sameVitals p (tryPlayerMoveY lvl p dt).
Proof.
  unfold tryPlayerMoveY.
  set (np0 := set_grounded false _).
  assert (H0 : sameVitals p np0) by (unfold sameVitals; simpl; tauto).
  set (np1 := if (p_dy p >=? ofZ 0)%num then _ else np0).
  assert (H1 : sameVitals np0 np1).
  { subst np1. destruct (p_dy p >=? ofZ 0)%num; [|apply sameVitals_refl].
    apply fold_left_preserves;
      [apply sameVitals_refl | apply sameVitals_trans
      | intros; apply landOn_vitals]. }
  destruct (p_dy p <? ofZ 0)%num.
  - eapply sameVitals_trans; [exact H0|]. eapply sameVitals_trans; [exact H1|].
    apply fold_left_preserves;
      [apply sameVitals_refl | apply sameVitals_trans
      | intros; apply bumpOn_vitals].
  - exact (sameVitals_trans H0 H1).
Qed.

Lemma updateAnim_vitals dt p : sameVitals p (updateAnim dt p).
Proof.
  unfold updateAnim. destruct (_ >? _)%num; unfold sameVitals; simpl; tauto.
Qed.

Lemma movePlayer_vitals (pow : num -> num -> num) lvl keys dt p q :
  movePlayer pow lvl keys dt p = Ok q -> sameVitals p q.
Proof.
  unfold movePlayer, bind. intros H.
  destruct (tryPlayerMoveX _ _ _) as [mx|] eqn:Hx; [|discriminate].
  injection H as <-.
  eapply sameVitals_trans; [apply (playerPhysics_vitals pow keys dt)|].
  eapply sameVitals_trans; [eapply tryPlayerMoveX_vitals; exact Hx|].
  eapply sameVitals_trans; [apply tryPlayerMoveY_vitals|apply updateAnim_vitals].
Qed.

Lemma stepGame_inv (pow : num -> num -> num) st keys dt st' :
  stepGame pow st keys dt = Ok st' ->
  exists movedY es flag,
    movePlayer pow (level st) keys dt (player st) = Ok movedY /\
    mapM (stepEnemy (level st) dt) (enemies st) = Ok es /\
    enemyPassOf pow st keys dt = Ok (enemyLoop (lives st) 0 es movedY) /\
    flagProbe (level st) (ep_player (enemyLoop (lives st) 0 es movedY)) = Ok flag /\
    st' = finishStep st dt (enemyLoop (lives st) 0 es movedY) flag.
Proof.
  unfold stepGame, enemyPassOf, bind. intros H.
  destruct (movePlayer _ _ _ _ _) as [movedY|]; [|discriminate].
  destruct (mapM _ _) as [es|]; [|discriminate].
  destruct (flagProbe _ _) as [flag|] eqn:Hf; [|discriminate].
  injection H as <-. exists movedY, es, flag. repeat split. exact Hf.
Qed.

(* ------------------------------------------------------------------ *)
(** *** Lives *)

Lemma deathRespawn_lives lvl dt pl : p_lives (deathRespawn lvl dt pl) = p_lives pl.
Proof. unfold deathRespawn. case_ifs; reflexivity. Qed.

Lemma clampToWorld_lives lvl pl : p_lives (clampToWorld lvl pl) = p_lives pl.
Proof. reflexivity. Qed.

Lemma finishStep_p_lives st dt ep flag :
  p_lives (player (finishStep st dt ep flag)) = p_lives (ep_player ep).
Proof.
  change (player (finishStep st dt ep flag))
    with (clampToWorld (level st) (deathRespawn (level st) dt (ep_player ep))).
  now rewrite clampToWorld_lives, deathRespawn_lives.
Qed.

Lemma finishStep_lives st dt ep flag :
  lives (finishStep st dt ep flag) = livesOr (ep_player ep) (lives st).
Proof.
  change (lives (finishStep st dt ep flag))
    with (livesOr (player (finishStep st dt ep flag)) (lives st)).
  unfold livesOr. now rewrite finishStep_p_lives.
Qed.

(** The life count of a step from a coherent state: one less after a
    side hit, unchanged otherwise. *)
Lemma step_lives (pow : num -> num -> num) st keys dt st' :
  livesCoherent st ->
  stepGame pow st keys dt = Ok st' ->
  exists ep,
    enemyPassOf pow st keys dt = Ok ep /\
    lives st' = (if ep_playerDied ep then lives st - 1 else lives st)%Z /\
    livesCoherent st'.
Proof.
  intros Hc H.
  destruct (stepGame_inv _ _ _ _ H) as (movedY & es & flag & Hm & _ & Hep & _ & ->).
  exists (enemyLoop (lives st) 0 es movedY). split; [exact Hep|].
  assert (Hl : lives (finishStep st dt (enemyLoop (lives st) 0 es movedY) flag) =
               (if ep_playerDied (enemyLoop (lives st) 0 es movedY)
                then lives st - 1 else lives st)%Z).
  { rewrite finishStep_lives. unfold livesOr. rewrite enemyLoop_lives.
    destruct (ep_playerDied _); [reflexivity|].
    destruct (movePlayer_vitals _ _ _ _ _ Hm) as (-> & _).
    destruct Hc as [-> | ->]; reflexivity. }
  split; [exact Hl|].
  unfold livesCoherent. rewrite finishStep_p_lives, Hl, enemyLoop_lives.
  destruct (ep_playerDied _); [now right|].
  destruct (movePlayer_vitals _ _ _ _ _ Hm) as (-> & _). exact Hc.
Qed.

Lemma reachable_livesCoherent (pow : num -> num -> num) st :
  reachable pow st -> livesCoherent st.
Proof.
  induction 1 as [|st keys dt st' _ IH Hstep].
  - now left.
  - destruct (step_lives _ _ _ IH Hstep) as (_ & _ & _ & Hc). exact Hc.
Qed.

(** C3, as stated, fails: the step has no floor at zero; invoked with
    [lives = 0] and a side hit it returns [lives = -1]. *)
Lemma lives_below_zero :
  exists st',
    stepGame pow_interp stLastLifeGone noKeys dt64 = Ok st' /\
    lives stLastLifeGone = 0%Z /\ lives st' = (-1)%Z.
Proof. eexists. split; [vm_compute; reflexivity|]. split; reflexivity. Qed.

(** C3, amended: along a session (from the initial state on) a step
    never raises [lives] and lowers it by at most one; so the returned
    [lives] is non-negative whenever the step is invoked with at least
    one life left.  The step itself has no floor at zero. *)
Theorem lives_step_bounds :
  forall (pow : num -> num -> num) st keys dt st',
    reachable pow st ->
    stepGame pow st keys dt = Ok st' ->
    (lives st' <= lives st)%Z /\
    (lives st - 1 <= lives st')%Z /\
    ((1 <= lives st)%Z -> (0 <= lives st')%Z).
Proof.
  intros pow st keys dt st' Hr H.
  destruct (step_lives _ _ _ (reachable_livesCoherent Hr) H) as (ep & _ & Hl & _).
  destruct (ep_playerDied ep); lia.
Qed.

Lemma lives_step_bounds_witness :
  exists st',
    stepGame pow_interp mkInitialGameState noKeys dt64 = Ok st' /\
    (lives st' <= lives mkInitialGameState)%Z /\
    (lives mkInitialGameState - 1 <= lives st')%Z /\
    (0 <= lives st')%Z.
Proof.
  assert (H : {st' | stepGame pow_interp mkInitialGameState noKeys dt64 = Ok st'})
    by (eexists; vm_compute; reflexivity).
  destruct H as [st' H]. exists st'. split; [exact H|].
  destruct (@lives_step_bounds pow_interp _ _ _ _ (reach_init pow_interp) H)
    as (H1 & H2 & H3).
  split; [exact H1|]. split; [exact H2|]. apply H3. vm_compute. discriminate.
Defined.

(* ------------------------------------------------------------------ *)
(** *** The time delta *)

Lemma getTile_NaN_NaN lvl : getTile lvl NaN NaN = TypeError.
Proof. reflexivity. Qed.

(** A probe whose x coordinate is [NaN] never reads a tile other than
    air or [undefined]. *)
Lemma getTile_NaN_x lvl py t :
  getTile lvl NaN py = Ok t -> t = Some 0%Z \/ t = None.
Proof.
  unfold getTile, px2tile. rewrite ndiv_NaN_l. simpl.
  destruct (_ || _).
  - intros [= <-]. now left.
  - destruct (arrGet (tiles lvl) _) as [row|]; [|discriminate].
    intros [= <-]. now right.
Qed.

Lemma moveXLoop_NaN lvl p np tx tys q :
  p_x np = NaN ->
  moveXLoop lvl p np tx tys = Ok q -> q = np.
Proof.
  intros Hx. induction tys as [|ty rest IH]; simpl; intros H.
  - now injection H.
  - rewrite Hx, nadd_NaN_l in H.
    destruct (getTile lvl NaN _) as [t|] eqn:Ht; simpl in H; [|discriminate].
    destruct (getTile_NaN_x _ _ Ht) as [-> | ->]; simpl in H; now apply IH.
Qed.

Lemma movePlayer_NaN (pow : num -> num -> num) lvl keys p q :
  movePlayer pow lvl keys NaN p = Ok q -> p_x q = NaN /\ p_y q = NaN.
Proof.
  unfold movePlayer, bind.
  destruct (tryPlayerMoveX _ _ _) as [mx|] eqn:Hx; [|discriminate].
  intros [= <-].
  unfold tryPlayerMoveX in Hx. apply moveXLoop_NaN in Hx; [|simpl; apply nmul_NaN_r_add].
  subst mx. unfold updateAnim, tryPlayerMoveY. simpl.
  rewrite !nmul_NaN_r, !nadd_NaN_r. simpl.
  case_ifs; split; reflexivity.
Qed.

Lemma stepGame_NaN (pow : num -> num -> num) st keys :
  stepGame pow st keys NaN = TypeError.
Proof.
  destruct (stepGame pow st keys NaN) as [st'|] eqn:H; [|reflexivity].
  destruct (stepGame_inv _ _ _ _ H) as (movedY & es & flag & Hm & _ & _ & Hf & _).
  destruct (movePlayer_NaN _ _ _ _ Hm) as (Hx & Hy).
  destruct (enemyLoop_sameBody (lives st) es 0 movedY) as (Ex & Ey & _).
  unfold flagProbe in Hf. rewrite Ex, Ey, Hx, Hy in Hf. discriminate.
Qed.

Lemma Math_min_fin (x y : Q) :
  Math_min (Fin x) (Fin y) = Fin (Qred (Qmin x y)).
Proof.
  unfold Math_min, lift2. f_equal. apply Qred_complete.
  destruct (Qle_bool x y) eqn:E.
  - apply Qle_bool_iff in E. symmetry. now apply Q.min_l.
  - symmetry. apply Q.min_r. apply Qlt_le_weak, Qnot_le_lt.
    intros Hle. apply Qle_bool_iff in Hle. congruence.
Qed.

(** C6, as stated, fails: a clock that runs backwards by a second gives
    the step a time delta of -1. *)
Lemma frameDt_negative_passes :
  frameDt (ofZ 0) (ofZ 1000) = ofZ (-1) /\
  inValidRange (frameDt (ofZ 0) (ofZ 1000)) = false.
Proof. split; reflexivity. Qed.

(** C6, amended: the frame clock clamps from above only.  The time
    delta is the minimum of the elapsed seconds and 0.07, so a finite
    elapsed time, negative ones included, gives a time delta of at most
    0.07 that is the elapsed time itself when this is below 0.07; a NaN
    elapsed time gives a NaN time delta.  The step does not clamp: with
    a NaN time delta it throws and yields no state at all. *)
Theorem frameDt_clamps_above_only :
  (forall now prev : num,
      match ((now - prev) / ofZ 1000)%num with
      | NaN => frameDt now prev = NaN
      | Fin r => frameDt now prev = Fin (Qred (Qmin r (7 # 100)))
      end) /\
  (forall now prev : num,
      frameDt now prev = NaN \/ (frameDt now prev <=? maxDt)%num = true) /\
  (forall (pow : num -> num -> num) st keys,
      stepGame pow st keys NaN = TypeError).
Proof.
  assert (H1 : forall now prev : num,
      match ((now - prev) / ofZ 1000)%num with
      | NaN => frameDt now prev = NaN
      | Fin r => frameDt now prev = Fin (Qred (Qmin r (7 # 100)))
      end).
  { intros now prev. unfold frameDt.
    destruct ((now - prev) / ofZ 1000)%num as [|r]; [reflexivity|].
    apply (Math_min_fin r (7 # 100)). }
  split; [exact H1|]. split; [|apply stepGame_NaN].
  intros now prev. specialize (H1 now prev).
  destruct ((now - prev) / ofZ 1000)%num as [|r]; [now left|right].
  rewrite H1. unfold maxDt, lit, nle, cmp2. apply Qle_bool_iff.
  rewrite !Qred_correct. apply Q.le_min_r.
Qed.

(* ------------------------------------------------------------------ *)
(** *** The tile sweeps *)

Lemma moveXLoop_closed lvl p np tx tys :
  moveXLoop lvl p np tx tys =
  match tys with
  | [] => Ok np
  | _ :: _ =>
      t <- getTile lvl
             (p_x np + (if (p_dx np >? ofZ 0)%num then p_w np else ofZ 0))%num
             (p_y np + p_h p / ofZ 2)%num ;;
      Ok (if isSolid t
          then set_dx (ofZ 0)
                 (set_x (if (p_dx p >? ofZ 0)%num
                         then (tx * TILE_SIZE - p_w np)%num
                         else ((tx + ofZ 1) * TILE_SIZE)%num) np)
          else np)
  end.
Proof.
  induction tys as [|ty rest IH]; [reflexivity|].
  cbn [moveXLoop]. rewrite IH.
  destruct (getTile lvl _ _) as [t|]; cbn [bind]; [|reflexivity].
  destruct (isSolid t) eqn:Hs; [reflexivity|].
  destruct rest; reflexivity.
Qed.

Lemma fold_landOn lvl ty np txs :
  fold_left (landOn lvl ty) txs np =
  if existsb (fun tx => isGround (tileOpt lvl ty tx) || isPlatform (tileOpt lvl ty tx)) txs
  then landOn_hit ty np else np.
Proof.
  revert np. induction txs as [|tx rest IH]; intros np; [reflexivity|].
  cbn [fold_left existsb]. rewrite IH. unfold landOn.
  destruct (isGround _ || isPlatform _); cbn [orb]; [|reflexivity].
  destruct (existsb _ rest); reflexivity.
Qed.

Lemma fold_bumpOn lvl ty np txs :
  fold_left (bumpOn lvl ty) txs np =
  if existsb (fun tx => isSolid (tileOpt lvl ty tx)) txs
  then bumpOn_hit ty np else np.
Proof.
  revert np. induction txs as [|tx rest IH]; intros np; [reflexivity|].
  cbn [fold_left existsb]. rewrite IH. unfold bumpOn.
  destruct (isSolid _); cbn [orb]; [|reflexivity].
  destruct (existsb _ rest); reflexivity.
Qed.

Lemma nge_nlt_excl (a b : num) : (a >=? b)%num = true -> (a <? b)%num = false.
Proof.
  unfold nge, nlt, nle, cmp2, Qlt_bool.
  destruct a, b; try discriminate. now intros ->.
Qed.

Lemma nlt_nge_excl (a b : num) : (a <? b)%num = true -> (a >=? b)%num = false.
Proof.
  intros H. destruct (a >=? b)%num eqn:E; [|reflexivity].
  apply nge_nlt_excl in E. congruence.
Qed.

Lemma tryPlayerMoveX_closed lvl p dt :
  tryPlayerMoveX lvl p dt =
  match rowsX p dt with
  | [] => Ok (slideX p dt)
  | _ :: _ =>
      t <- probeX lvl p dt ;;
      Ok (if stopsSweep t then snapX p dt else slideX p dt)
  end.
Proof. unfold tryPlayerMoveX. now rewrite moveXLoop_closed. Qed.

Lemma tryPlayerMoveY_down lvl p dt :
  (p_dy p >=? ofZ 0)%num = true ->
  tryPlayerMoveY lvl p dt =
  if existsb (fun tx => stopsFall (tileOpt lvl (rowBelow p dt) tx)) (columnsY p dt)
  then landY p dt else fallY p dt.
Proof.
  intros H. unfold tryPlayerMoveY. rewrite H, (nge_nlt_excl _ _ H).
  now rewrite fold_landOn.
Qed.

Lemma tryPlayerMoveY_up lvl p dt :
  (p_dy p <? ofZ 0)%num = true ->
  tryPlayerMoveY lvl p dt =
  if existsb (fun tx => stopsSweep (tileOpt lvl (rowAbove p dt) tx)) (columnsY p dt)
  then bumpY p dt else fallY p dt.
Proof.
  intros H. unfold tryPlayerMoveY. rewrite H, (nlt_nge_excl _ _ H).
  now rewrite fold_bumpOn.
Qed.

(** C1, as stated, fails: a platform tile stops the horizontal sweep
    and the upward sweep, snapping the box and zeroing the velocity. *)
Lemma platform_blocks_sideways_and_upwards :
  (probeX level1 pWalksIntoPlatform dt64 = Ok (Some 2%Z) /\
   exists q, tryPlayerMoveX level1 pWalksIntoPlatform dt64 = Ok q /\
             p_dx pWalksIntoPlatform = ofZ 128 /\
             p_dx q = ofZ 0 /\ p_x q = ofZ 78) /\
  (tileOpt level1 (ofZ 3) (ofZ 3) = Some 2%Z /\
   columnsY pRisesUnderPlatform dt64 = [ofZ 3] /\
   rowAbove pRisesUnderPlatform dt64 = ofZ 3 /\
   p_dy pRisesUnderPlatform = ofZ (-128) /\
   p_dy (tryPlayerMoveY level1 pRisesUnderPlatform dt64) = ofZ 0 /\
   p_y (tryPlayerMoveY level1 pRisesUnderPlatform dt64) = ofZ 96).
Proof.
  split.
  - split; [reflexivity|]. eexists. split; [vm_compute; reflexivity|].
    repeat split.
  - repeat split.
Qed.

(** C1, amended: a platform tile is solid on every probe.  The
    horizontal sweep probes one point and, when the tile there is
    ground, platform or flag, snaps the box to the tile boundary and
    zeroes [dx]; the upward sweep snaps the top edge below the probed
    row and zeroes [dy] when a tile of the row under the footprint is
    ground, platform or flag; the downward sweep lands the box (zero
    [dy], grounded, coyote timer re-armed) when such a tile is ground or
    platform, and a flag tile does not stop a fall. *)
Theorem platform_solid_on_every_probe :
  (forall lvl p dt,
      tryPlayerMoveX lvl p dt =
      match rowsX p dt with
      | [] => Ok (slideX p dt)
      | _ :: _ =>
          t <- probeX lvl p dt ;;
          Ok (if stopsSweep t then snapX p dt else slideX p dt)
      end) /\
  (forall lvl p dt,
      (p_dy p <? ofZ 0)%num = true ->
      tryPlayerMoveY lvl p dt =
      if existsb (fun tx => stopsSweep (tileOpt lvl (rowAbove p dt) tx))
           (columnsY p dt)
      then bumpY p dt else fallY p dt) /\
  (forall lvl p dt,
      (p_dy p >=? ofZ 0)%num = true ->
      tryPlayerMoveY lvl p dt =
      if existsb (fun tx => stopsFall (tileOpt lvl (rowBelow p dt) tx))
           (columnsY p dt)
      then landY p dt else fallY p dt) /\
  (forall p dt, p_dx (snapX p dt) = ofZ 0 /\ p_dy (bumpY p dt) = ofZ 0 /\
                p_dy (landY p dt) = ofZ 0 /\ p_grounded (landY p dt) = true) /\
  stopsSweep (Some 2%Z) = true /\ stopsFall (Some 2%Z) = true /\
  stopsSweep (Some 5%Z) = true /\ stopsFall (Some 5%Z) = false.
Proof.
  split; [exact tryPlayerMoveX_closed|].
  split; [exact tryPlayerMoveY_up|].
  split; [exact tryPlayerMoveY_down|].
  repeat split.
Qed.

Lemma platform_solid_on_every_probe_witness :
  tryPlayerMoveY level1 pRisesUnderPlatform dt64 = bumpY pRisesUnderPlatform dt64 /\
  tryPlayerMoveY level1 (playerAt 24 169 64 false) dt64 =
  landY (playerAt 24 169 64 false) dt64.
Proof.
  destruct platform_solid_on_every_probe as (_ & Hup & Hdown & _).
  split.
  - rewrite (Hup level1 pRisesUnderPlatform dt64); reflexivity.
  - rewrite (Hdown level1 (playerAt 24 169 64 false) dt64); reflexivity.
Defined.

(* ------------------------------------------------------------------ *)
(** *** Loading a level *)

(** C7, as stated, fails: the loader validates nothing; on malformed
    level data it returns a world state like on any other. *)
Lemma malformed_level_loads :
  rowsMatchDeclared raggedLevel = false /\
  hasSpawnTile raggedLevel = false /\
  mkInitialGameStateOf raggedLevel =
  {| level := raggedLevel;
     player := player mkInitialGameState;
     camera := mkCamera (ofZ 0) (ofZ 0);
     enemies := [mkEnemy (ofZ 72) (ofZ 0) (ofZ 60) (ofZ 0) (ofZ 20) (ofZ 18)
                   false (mkPatrol (ofZ 24) (ofZ 120))];
     coins := [mkCoin (ofZ 30) (ofZ 29) (ofZ 6) false];
     collectedCoins := [];
     score := 0;
     lives := 3;
     win := false;
     timer := ofZ 0;
     started := true |}.
Proof. repeat split. Qed.

(** C7, amended: constructing the initial world state never fails and
    validates nothing.  For every level grid, well-formed or not, the
    loader returns a state over that grid with the player at the fixed
    start tile (1, 5), three lives, no score and nothing collected;
    enemies and coins are those the markers of the rows yield.  The
    level the game ships is well-formed. *)
Theorem load_validates_nothing :
  (forall lvl,
      level (mkInitialGameStateOf lvl) = lvl /\
      sp_player (findSpawns lvl) = mkTilePos 1 5 /\
      player (mkInitialGameStateOf lvl) = player mkInitialGameState /\
      p_x (player (mkInitialGameStateOf lvl)) = ofZ 24 /\
      p_y (player (mkInitialGameStateOf lvl)) = ofZ 96 /\
      lives (mkInitialGameStateOf lvl) = initialLives /\
      score (mkInitialGameStateOf lvl) = 0%Z /\
      win (mkInitialGameStateOf lvl) = false /\
      collectedCoins (mkInitialGameStateOf lvl) = [] /\
      List.length (enemies (mkInitialGameStateOf lvl)) =
        List.length (sp_enemies (findSpawns lvl)) /\
      List.length (coins (mkInitialGameStateOf lvl)) =
        List.length (findCoins lvl)) /\
  rowsMatchDeclared level1 = true /\ hasSpawnTile level1 = true.
Proof.
  split; [|split; reflexivity].
  intros lvl. repeat split; simpl; apply length_map.
Qed.

(* ------------------------------------------------------------------ *)
(** *** The enemy pass *)

Lemma stepEnemy_dead lvl dt e e' :
  stepEnemy lvl dt e = Ok e' -> e_dead e' = e_dead e.
Proof.
  unfold stepEnemy. destruct (e_dead e) eqn:Hd.
  - intros [= <-]. exact Hd.
  - unfold bind. destruct (getTile _ _ _) as [t|]; [|discriminate].
    destruct (negb _); intros [= <-]; simpl; case_ifs; congruence.
Qed.

Lemma mapM_stepEnemy_dead lvl dt es :
  forall es', mapM (stepEnemy lvl dt) es = Ok es' ->
              map e_dead es' = map e_dead es.
Proof.
  induction es as [|e rest IH]; simpl; intros es' H.
  - now injection H as <-.
  - unfold bind in H.
    destruct (stepEnemy lvl dt e) as [e1|] eqn:He; [|discriminate].
    destruct (mapM _ rest) as [rest1|]; [|discriminate].
    injection H as <-. simpl. f_equal; [eapply stepEnemy_dead; eassumption|].
    now apply IH.
Qed.

Lemma countDead_map_dead (es es' : list Enemy) :
  map e_dead es' = map e_dead es -> countDead es' = countDead es.
Proof.
  unfold countDead. revert es'.
  induction es as [|e rest IH]; intros [|e' rest']; simpl; try discriminate;
    [reflexivity|].
  intros [= Hd Hrest]. rewrite Hd. destruct (e_dead e); simpl; auto.
Qed.

Lemma enemyLoop_countDead (stLives : Z) (es : list Enemy) :
  forall i pl,
    countDead (ep_enemies (enemyLoop stLives i es pl)) =
    (countDead es + List.length (ep_stomped (enemyLoop stLives i es pl)))%nat.
Proof.
  unfold countDead.
  induction es as [|e rest IH]; intros i pl; [reflexivity|].
  cbn [enemyLoop].
  destruct (e_dead e) eqn:Hd.
  { cbn [ep_enemies ep_stomped filter]. rewrite Hd. simpl. now rewrite IH. }
  assert (Hskip : forall q,
    List.length (filter e_dead (e :: ep_enemies (enemyLoop stLives (S i) rest q))) =
    (List.length (filter e_dead (e :: rest)) +
     List.length (ep_stomped (enemyLoop stLives (S i) rest q)))%nat).
  { intros q. cbn [filter]. rewrite Hd. apply IH. }
  destruct (rectsCollide _ _); [|apply Hskip].
  destruct (isStomp pl e).
  - cbn [ep_enemies ep_stomped filter]. rewrite Hd.
    change (e_dead (set_e_dead true e)) with true. simpl.
    rewrite IH. lia.
  - destruct (_ <=? _)%num; [|apply Hskip].
    cbn [ep_enemies ep_stomped]. simpl. lia.
Qed.





(* ------------------------------------------------------------------ *)
(** *** Score, coins and the flag *)

Lemma coinLoop_scoreInc rect cs :
  forall i, cp_scoreInc (coinLoop rect i cs) =
            (10 * Z.of_nat (List.length (cp_picked (coinLoop rect i cs))))%Z.
Proof.
  induction cs as [|c rest IH]; intros i; [reflexivity|].
  cbn [coinLoop]. destruct (coinHit rect c); cbn [cp_scoreInc cp_picked].
  - rewrite IH. cbn [List.length]. lia.
  - apply IH.
Qed.

Lemma flagProbe_sameBody lvl p q :
  sameBody p q -> flagProbe lvl q = flagProbe lvl p.
Proof.
  intros (Hx & Hy & Hw & Hh & _). unfold flagProbe. now rewrite Hx, Hy, Hw, Hh.
Qed.

(** The score of a step: ten per coin picked, fifty per enemy stomped,
    a hundred when the centre of the moved player is on the flag. *)
Lemma step_score (pow : num -> num -> num) st keys dt st' :
  stepGame pow st keys dt = Ok st' ->
  exists movedY es,
    movePlayer pow (level st) keys dt (player st) = Ok movedY /\
    mapM (stepEnemy (level st) dt) (enemies st) = Ok es /\
    flagProbe (level st) movedY = Ok (win st') /\
    let ep := enemyLoop (lives st) 0 es movedY in
    let cp := coinLoop (getPlayerRect (ep_player ep)) 0 (coins st) in
    st' = finishStep st dt ep (win st') /\
    score st' =
      (score st + 10 * Z.of_nat (List.length (cp_picked cp))
       + 50 * Z.of_nat (List.length (ep_stomped ep))
       + (if win st' then 100 else 0))%Z.
Proof.
  intros H.
  destruct (stepGame_inv _ _ _ _ H) as (movedY & es & flag & Hm & Hes & _ & Hf & ->).
  exists movedY, es. split; [exact Hm|]. split; [exact Hes|].
  split.
  { rewrite <- (flagProbe_sameBody _ (enemyLoop_sameBody (lives st) es 0 movedY)).
    exact Hf. }
  split; [reflexivity|].
  cbn [score finishStep win]. rewrite coinLoop_scoreInc. lia.
Qed.

(** C4, as stated, fails: the bonus is awarded on every tick on which
    the centre of the player is on the flag, also once [win] is set. *)
Lemma win_bonus_on_every_tick :
  stepGame pow_interp stAtFlag noKeys dt64 = Ok stAtFlag1 /\
  stepGame pow_interp stAtFlag1 noKeys dt64 = Ok stAtFlag2 /\
  score stAtFlag = 0%Z /\
  win stAtFlag1 = true /\ score stAtFlag1 = 100%Z /\
  win stAtFlag2 = true /\ score stAtFlag2 = 200%Z.
Proof.
  split; [vm_compute; reflexivity|].
  split; [vm_compute; reflexivity|]. repeat split.
Qed.

(** C4, amended: the step neither reads nor latches [win].  On every
    tick, [win] is set exactly when the tile under the centre of the
    moved player is the flag, and on every such tick, not only the
    first, the score grows by the win bonus of 100, on top of 10 per
    coin picked and 50 per enemy tombstoned on that tick; coins and
    stomps keep changing the score after [win] is set. *)
Theorem win_bonus_per_flag_tick :
  forall (pow : num -> num -> num) st keys dt st',
    stepGame pow st keys dt = Ok st' ->
    (exists movedY,
        movePlayer pow (level st) keys dt (player st) = Ok movedY /\
        flagProbe (level st) movedY = Ok (win st')) /\
    score st' =
      (score st
       + 10 * (Z.of_nat (List.length (collectedCoins st'))
               - Z.of_nat (List.length (collectedCoins st)))
       + 50 * (Z.of_nat (countDead (enemies st'))
               - Z.of_nat (countDead (enemies st)))
       + (if win st' then 100 else 0))%Z /\
    (forall b, stepGame pow (withWin b st) keys dt = Ok st').
Proof.
  intros pow st keys dt st' H.
  destruct (step_score _ _ _ _ H) as (movedY & es & Hm & Hes & Hf & Hst & Hsc).
  split; [exists movedY; split; assumption|].
  split; [|intros b; exact H].
  rewrite Hsc. rewrite Hst at 2 3.
  cbn [collectedCoins enemies finishStep].
  rewrite length_app, enemyLoop_countDead.
  rewrite (countDead_map_dead _ _ (mapM_stepEnemy_dead _ _ _ Hes)). lia.
Qed.

Lemma win_bonus_per_flag_tick_witness :
  stepGame pow_interp (withWin true stAtFlag1) noKeys dt64 = Ok stAtFlag2 /\
  win stAtFlag2 = true /\ score stAtFlag2 = (score stAtFlag1 + 100)%Z.
Proof.
  assert (H : stepGame pow_interp stAtFlag1 noKeys dt64 = Ok stAtFlag2)
    by (vm_compute; reflexivity).
  destruct (@win_bonus_per_flag_tick pow_interp _ _ _ _ H) as (_ & _ & Hb).
  split; [apply Hb|]. split; reflexivity.
Defined.

(* ------------------------------------------------------------------ *)
(** *** Stomps, side hits and invulnerability *)

Lemma enemyLoop_invulnerable (stLives : Z) (es : list Enemy) :
  forall i pl,
    (p_invuln pl <=? ofZ 0)%num = false ->
    ep_playerDied (enemyLoop stLives i es pl) = false.
Proof.
  induction es as [|e rest IH]; intros i pl Hinv; [reflexivity|].
  cbn [enemyLoop].
  destruct (e_dead e); [now apply IH|].
  destruct (rectsCollide _ _); [|now apply IH].
  destruct (isStomp pl e); [now apply IH|].
  rewrite Hinv. now apply IH.
Qed.

Lemma enemyLoop_side_hit (stLives : Z) (es : list Enemy) :
  forall i pl e,
    (p_invuln pl <=? ofZ 0)%num = true ->
    In e es -> e_dead e = false ->
    rectsCollide (getPlayerRect pl) (getEntityRect e) = true ->
    isStomp pl e = false ->
    ep_playerDied (enemyLoop stLives i es pl) = true.
Proof.
  induction es as [|e0 rest IH]; intros i pl e Hinv Hin Hlive Hcol Hns;
    [contradiction|].
  cbn [enemyLoop].
  destruct (e_dead e0) eqn:Hd0.
  { destruct Hin as [-> | Hin]; [congruence|]. now apply (IH _ _ e). }
  destruct (rectsCollide _ (getEntityRect e0)) eqn:Hc0.
  2:{ destruct Hin as [-> | Hin]; [congruence|]. now apply (IH _ _ e). }
  destruct (isStomp pl e0) eqn:Hs0.
  - destruct Hin as [-> | Hin]; [congruence|].
    cbn [ep_playerDied]. apply (IH _ _ e); auto.
  - now rewrite Hinv.
Qed.

(** What the side-hit branch leaves on the player when the pass ends. *)
Lemma enemyLoop_died_player (stLives : Z) (es : list Enemy) :
  forall i pl,
    ep_playerDied (enemyLoop stLives i es pl) = true ->
    (p_invuln pl <=? ofZ 0)%num = true /\
    p_dead (ep_player (enemyLoop stLives i es pl)) = true /\
    p_respawnTimer (ep_player (enemyLoop stLives i es pl)) = lit 9 10 /\
    p_invuln (ep_player (enemyLoop stLives i es pl)) = PHYS.invulnMs.
Proof.
  induction es as [|e rest IH]; intros i pl; [discriminate|].
  cbn [enemyLoop].
  destruct (e_dead e); [apply IH|].
  destruct (rectsCollide _ _); [|apply IH].
  destruct (isStomp pl e); [apply (IH (S i) (stompBounce pl))|].
  destruct (_ <=? _)%num eqn:Hinv.
  - intros _. repeat split.
  - cbn [ep_playerDied]. intros Hdied.
    destruct (IH _ _ Hdied) as (H1 & _). congruence.
Qed.

(** Within the time delta of the frame clock a respawn countdown that
    has just started does not run out. *)
Lemma countdown_outlasts_frame (dt : num) :
  (dt <=? maxDt)%num = true -> (lit 9 10 - dt <=? ofZ 0)%num = false.
Proof.
  intros H. destruct (nle_true_fin _ _ H) as (x & y & -> & Hy & Hle).
  injection Hy as <-.
  unfold lit, nsub, lift2, nle, cmp2, ofZ.
  apply not_true_is_false. intros Hc. apply Qle_bool_iff in Hc.
  assert (Hle' : (x <= 7 # 100)%Q) by exact Hle.
  rewrite !Qred_correct in Hc. unfold inject_Z in Hc. lra.
Qed.

Lemma deathRespawn_just_hit lvl dt pl :
  (dt <=? maxDt)%num = true ->
  p_dead pl = true -> p_respawnTimer pl = lit 9 10 ->
  deathRespawn lvl dt pl =
  set_respawnTimer (lit 9 10 - dt)%num (set_invuln PHYS.invulnMs pl).
Proof.
  intros Hdt Hd Ht. unfold deathRespawn. rewrite Hd.
  cbn [p_respawnTimer set_respawnTimer set_invuln]. rewrite Ht.
  now rewrite (countdown_outlasts_frame _ Hdt).
Qed.

(** C5: in a step of the frame loop (time delta at most 0.07) from a
    state of a session, with [movedY] the player after its motion and
    [es] the enemies after theirs.  Stomps never decrement [lives]:
    when the enemy pass ends without a side hit, [lives] is unchanged
    however many enemies overlapped.  An overlap with a live enemy that
    is no stomp, with the invulnerability timer at zero, is a side hit,
    and a side hit decrements [lives] by exactly one, leaves the player
    dead and arms the invulnerability timer.  While the timer is
    positive no side hit happens and [lives] is unchanged, whatever
    overlaps. *)
Theorem side_hit_and_stomp_lives :
  forall (pow : num -> num -> num) st keys dt st' movedY es,
    livesCoherent st ->
    (dt <=? maxDt)%num = true ->
    stepGame pow st keys dt = Ok st' ->
    movePlayer pow (level st) keys dt (player st) = Ok movedY ->
    mapM (stepEnemy (level st) dt) (enemies st) = Ok es ->
    let ep := enemyLoop (lives st) 0 es movedY in
    (ep_playerDied ep = false -> lives st' = lives st) /\
    (forall e,
        In e es -> e_dead e = false ->
        rectsCollide (getPlayerRect movedY) (getEntityRect e) = true ->
        isStomp movedY e = false ->
        (p_invuln (player st) <=? ofZ 0)%num = true ->
        ep_playerDied ep = true) /\
    (ep_playerDied ep = true ->
     lives st' = (lives st - 1)%Z /\
     p_dead (player st') = true /\
     p_invuln (player st') = PHYS.invulnMs /\
     p_respawnTimer (player st') = (lit 9 10 - dt)%num) /\
    ((p_invuln (player st) >? ofZ 0)%num = true ->
     ep_playerDied ep = false /\ lives st' = lives st).
Proof.
  intros pow st keys dt st' movedY es Hc Hdt H Hm Hes ep.
  destruct (step_lives _ _ _ Hc H) as (ep0 & Hep0 & Hl & _).
  destruct (stepGame_inv _ _ _ _ H) as (m0 & es0 & flag & Hm0 & Hes0 & _ & _ & Hst).
  rewrite Hm in Hm0. injection Hm0 as <-.
  rewrite Hes in Hes0. injection Hes0 as <-.
  unfold enemyPassOf in Hep0. rewrite Hm, Hes in Hep0. cbn [bind] in Hep0.
  injection Hep0 as <-. fold ep in Hl, Hst.
  destruct (movePlayer_vitals _ _ _ _ _ Hm) as (_ & Hinv & _).
  assert (Hsafe : (p_invuln movedY <=? ofZ 0)%num = false ->
                  ep_playerDied ep = false /\ lives st' = lives st).
  { intros Hn. assert (Hd : ep_playerDied ep = false)
      by (apply enemyLoop_invulnerable; exact Hn).
    split; [exact Hd|]. now rewrite Hl, Hd. }
  split; [intros Hd; now rewrite Hl, Hd|].
  split.
  { intros e Hin Hlive Hcol Hns Hz. rewrite <- Hinv in Hz.
    now apply (enemyLoop_side_hit (lives st) es 0 movedY e). }
  split.
  - intros Hd. split; [now rewrite Hl, Hd|].
    destruct (enemyLoop_died_player _ _ _ _ Hd) as (_ & Hdead & Htimer & _).
    fold ep in Hdead, Htimer.
    rewrite Hst.
    change (player (finishStep st dt ep flag))
      with (clampToWorld (level st) (deathRespawn (level st) dt (ep_player ep))).
    rewrite (@deathRespawn_just_hit (level st) dt _ Hdt Hdead Htimer).
    repeat split. exact Hdead.
  - intros Hpos. apply Hsafe. rewrite Hinv. now apply ngt_nle_excl.
Qed.

Lemma side_hit_and_stomp_lives_witness :
  exists st',
    stepGame pow_interp stSideHit noKeys dt64 = Ok st' /\
    lives st' = (lives stSideHit - 1)%Z /\
    p_dead (player st') = true /\
    p_invuln (player st') = PHYS.invulnMs.
Proof.
  assert (H : {st' | stepGame pow_interp stSideHit noKeys dt64 = Ok st'})
    by (eexists; vm_compute; reflexivity).
  destruct H as [st' H].
  assert (Hm : {m | movePlayer pow_interp (level stSideHit) noKeys dt64
                      (player stSideHit) = Ok m})
    by (eexists; vm_compute; reflexivity).
  destruct Hm as [m Hm].
  assert (Hes : {es | mapM (stepEnemy (level stSideHit) dt64)
                        (enemies stSideHit) = Ok es /\
                      ep_playerDied (enemyLoop (lives stSideHit) 0 es m) = true}).
  { revert Hm. vm_compute. intros [= <-]. eexists. split; reflexivity. }
  destruct Hes as [es [Hes Hd]].
  assert (Hc : livesCoherent stSideHit) by (left; reflexivity).
  assert (Hdt : (dt64 <=? maxDt)%num = true) by reflexivity.
  destruct (@side_hit_and_stomp_lives pow_interp _ _ _ _ _ _ Hc Hdt H Hm Hes)
    as (_ & _ & Hhit & _).
  destruct (Hhit Hd) as (H1 & H2 & H3 & _).
  exists st'. split; [exact H|]. split; [exact H1|]. split; [exact H2|exact H3].
Defined.

(* ------------------------------------------------------------------ *)
(** *** Respawn *)






(* ------------------------------------------------------------------ *)
(** *** Coins *)

Lemma coinLoop_nth rect cs :
  forall i k c,
    nth_error cs k = Some c ->
    nth_error (cp_coins (coinLoop rect i cs)) k =
    Some (if coinHit rect c then set_c_collected true c else c).
Proof.
  induction cs as [|c0 rest IH]; intros i k c Hk; [destruct k; discriminate|].
  cbn [coinLoop]. destruct k as [|k]; simpl in Hk.
  - injection Hk as <-. destruct (coinHit rect c0); reflexivity.
  - destruct (coinHit rect c0); cbn [cp_coins nth_error]; now apply IH.
Qed.

Lemma coinLoop_picked rect cs :
  forall i j,
    In j (cp_picked (coinLoop rect i cs)) <->
    exists k c, j = (i + k)%nat /\ nth_error cs k = Some c /\ coinHit rect c = true.
Proof.
  induction cs as [|c0 rest IH]; intros i j.
  - simpl. split; [contradiction|]. intros (k & c & _ & Hk & _).
    destruct k; discriminate.
  - cbn [coinLoop].
    assert (Hrest : In j (cp_picked (coinLoop rect (S i) rest)) <->
                    exists k c, j = (i + S k)%nat /\ nth_error rest k = Some c /\
                                coinHit rect c = true).
    { rewrite IH. split; intros (k & c & Hj & Hk & Hh); exists k, c;
        repeat split; auto; lia. }
    destruct (coinHit rect c0) eqn:Hc0; cbn [cp_picked In]; rewrite Hrest; split.
    + intros [<- | (k & c & Hj & Hk & Hh)].
      * exists 0%nat, c0. repeat split; auto.
      * exists (S k), c. repeat split; auto.
    + intros ([|k] & c & Hj & Hk & Hh).
      * left. lia.
      * right. exists k, c. repeat split; auto.
    + intros (k & c & Hj & Hk & Hh). exists (S k), c. repeat split; auto.
    + intros ([|k] & c & Hj & Hk & Hh).
      * simpl in Hk. injection Hk as <-. congruence.
      * exists k, c. repeat split; auto.
Qed.

Lemma coinLoop_picked_NoDup rect cs :
  forall i, NoDup (cp_picked (coinLoop rect i cs)).
Proof.
  induction cs as [|c0 rest IH]; intros i; [constructor|].
  cbn [coinLoop]. destruct (coinHit rect c0); cbn [cp_picked]; [|apply IH].
  constructor; [|apply IH].
  intros Hin. apply coinLoop_picked in Hin. destruct Hin as (k & _ & Hj & _). lia.
Qed.

Lemma coinHit_true rect c :
  coinHit rect c = true <->
  c_collected c = false /\
  circleBoxCollide (c_x c) (c_y c) (c_r c) rect = true.
Proof.
  unfold coinHit. rewrite andb_true_iff, negb_true_iff. tauto.
Qed.

(** What a step does to the coins, to the collected list and to the
    score. *)
Lemma step_coins :
  forall (pow : num -> num -> num) st keys dt st' ep,
    coinsInv st ->
    stepGame pow st keys dt = Ok st' ->
    enemyPassOf pow st keys dt = Ok ep ->
    let rect := getPlayerRect (ep_player ep) in
    exists picked,
      collectedCoins st' = (collectedCoins st ++ picked)%list /\
      NoDup picked /\
      (forall i, In i picked <->
                 exists c, nth_error (coins st) i = Some c /\
                           c_collected c = false /\
                           circleBoxCollide (c_x c) (c_y c) (c_r c) rect = true) /\
      (forall i c, nth_error (coins st) i = Some c ->
                   c_collected c = true ->
                   nth_error (coins st') i = Some c /\ ~ In i picked) /\
      (forall i c, nth_error (coins st) i = Some c ->
                   c_collected c = false ->
                   nth_error (coins st') i =
                   Some (if circleBoxCollide (c_x c) (c_y c) (c_r c) rect
                         then set_c_collected true c else c)) /\
      score st' =
        (score st + 10 * Z.of_nat (List.length picked)
         + 50 * Z.of_nat (List.length (ep_stomped ep))
         + (if win st' then 100 else 0))%Z /\
      coinsInv st'.
Proof.
  intros pow st keys dt st' ep (Hnd & Hinv) H Hep rect.
  destruct (step_score _ _ _ _ H) as (movedY & es & Hm & Hes & _ & Hst & Hsc).
  assert (Eep : ep = enemyLoop (lives st) 0 es movedY).
  { unfold enemyPassOf in Hep. rewrite Hm, Hes in Hep. cbn [bind] in Hep.
    now injection Hep. }
  rewrite <- Eep in Hst, Hsc. fold rect in Hsc.
  set (cp := coinLoop rect 0 (coins st)) in *.
  assert (Hcc : collectedCoins st' = (collectedCoins st ++ cp_picked cp)%list)
    by (rewrite Hst; reflexivity).
  assert (Hcs : coins st' = cp_coins cp) by (rewrite Hst; reflexivity).
  assert (Hpick : forall i, In i (cp_picked cp) <->
             exists c, nth_error (coins st) i = Some c /\
                       c_collected c = false /\
                       circleBoxCollide (c_x c) (c_y c) (c_r c) rect = true).
  { intros i. unfold cp. rewrite coinLoop_picked. split.
    - intros (k & c & -> & Hk & Hh). exists c. apply coinHit_true in Hh. tauto.
    - intros (c & Hk & Hh). exists i, c. rewrite coinHit_true. tauto. }
  assert (Hold : forall i c, nth_error (coins st) i = Some c ->
             c_collected c = true ->
             nth_error (coins st') i = Some c /\ ~ In i (cp_picked cp)).
  { intros i c Hk Hc. split.
    - rewrite Hcs. unfold cp. rewrite (coinLoop_nth rect _ 0 _ Hk).
      unfold coinHit. now rewrite Hc.
    - rewrite Hpick. intros (c' & Hk' & Hc' & _). congruence. }
  assert (Hnew : forall i c, nth_error (coins st) i = Some c ->
             c_collected c = false ->
             nth_error (coins st') i =
             Some (if circleBoxCollide (c_x c) (c_y c) (c_r c) rect
                   then set_c_collected true c else c)).
  { intros i c Hk Hc. rewrite Hcs. unfold cp.
    rewrite (coinLoop_nth rect _ 0 _ Hk). unfold coinHit. now rewrite Hc. }
  exists (cp_picked cp).
  split; [exact Hcc|]. split; [apply coinLoop_picked_NoDup|].
  split; [exact Hpick|]. split; [exact Hold|]. split; [exact Hnew|].
  split; [exact Hsc|].
  split.
  - rewrite Hcc. apply NoDup_app; [exact Hnd|apply coinLoop_picked_NoDup|].
    intros i Hi Hp. destruct (Hinv i Hi) as (c & Hk & Hc).
    now apply (proj2 (Hold i c Hk Hc)).
  - intros i Hi. rewrite Hcc in Hi. apply in_app_or in Hi. destruct Hi as [Hi | Hi].
    + destruct (Hinv i Hi) as (c & Hk & Hc). exists c.
      split; [apply (Hold i c Hk Hc)|exact Hc].
    + destruct (proj1 (Hpick i) Hi) as (c & Hk & Hc & Hh).
      exists (set_c_collected true c). split; [|reflexivity].
      rewrite (Hnew i c Hk Hc), Hh. reflexivity.
Qed.

(** C9: in a step from a state whose collected list names collected
    coins once each, with [rect] the box of the moved player: the
    indices appended to [collectedCoins] are, each once, exactly those
    of the coins that were uncollected and overlap [rect]; these coins
    are tombstoned, the others left as they are; a coin already
    collected is never appended again and adds nothing to the score,
    which grows by 10 per appended index (next to stomps and the flag);
    and [collectedCoins] has no index twice afterwards either. *)
Theorem coin_pickup_idempotent :
  forall (pow : num -> num -> num) st keys dt st' ep,
    coinsInv st ->
    stepGame pow st keys dt = Ok st' ->
    enemyPassOf pow st keys dt = Ok ep ->
    let rect := getPlayerRect (ep_player ep) in
    exists picked,
      collectedCoins st' = (collectedCoins st ++ picked)%list /\
      NoDup picked /\
      (forall i, In i picked <->
                 exists c, nth_error (coins st) i = Some c /\
                           c_collected c = false /\
                           circleBoxCollide (c_x c) (c_y c) (c_r c) rect = true) /\
      (forall i c, nth_error (coins st) i = Some c ->
                   c_collected c = true ->
                   nth_error (coins st') i = Some c /\ ~ In i picked) /\
      (forall i c, nth_error (coins st) i = Some c ->
                   c_collected c = false ->
                   nth_error (coins st') i =
                   Some (if circleBoxCollide (c_x c) (c_y c) (c_r c) rect
                         then set_c_collected true c else c)) /\
      score st' =
        (score st + 10 * Z.of_nat (List.length picked)
         + 50 * Z.of_nat (List.length (ep_stomped ep))
         + (if win st' then 100 else 0))%Z /\
      coinsInv st'.
Proof. exact step_coins. Qed.

Lemma reachable_coinsInv (pow : num -> num -> num) st :
  reachable pow st -> coinsInv st.
Proof.
  induction 1 as [|st keys dt st' _ IH Hstep].
  - split; [constructor|]. intros i [].
  - destruct (stepGame_inv _ _ _ _ Hstep) as (m & es & flag & _ & _ & Hep & _ & _).
    destruct (@step_coins pow _ _ _ _ _ IH Hstep Hep) as (picked & _ & _ & _ & _ & _ & _ & Hc).
    exact Hc.
Qed.

Lemma coin_pickup_idempotent_witness :
  exists st',
    stepGame pow_interp stThreeCoins noKeys dt64 = Ok st' /\
    collectedCoins stThreeCoins = [0%nat] /\
    collectedCoins st' = [0; 1; 2]%nat /\
    score st' = (score stThreeCoins + 20)%Z /\
    NoDup (collectedCoins st').
Proof.
  assert (H : {st' | stepGame pow_interp stThreeCoins noKeys dt64 = Ok st' /\
                     collectedCoins st' = [0; 1; 2]%nat /\
                     score st' = (score stThreeCoins + 20)%Z})
    by (eexists; split; [vm_compute; reflexivity|split; reflexivity]).
  destruct H as [st' (H & Hcc & Hsc)].
  assert (Hep : {ep | enemyPassOf pow_interp stThreeCoins noKeys dt64 = Ok ep})
    by (eexists; vm_compute; reflexivity).
  destruct Hep as [ep Hep].
  assert (Hinv : coinsInv stThreeCoins).
  { split.
    - constructor; [intros []|constructor].
    - intros i [<- | []]. eexists. split; reflexivity. }
  destruct (@coin_pickup_idempotent pow_interp _ _ _ _ _ Hinv H Hep)
    as (picked & _ & _ & _ & _ & _ & _ & Hnd & _).
  exists st'. repeat split; assumption.
Defined.

(* ------------------------------------------------------------------ *)
(** *** The coyote timer *)

Lemma playerPhysics_armed (pow : num -> num -> num) keys dt p :
  jumpArmed p = true ->
  let q := playerPhysics pow keys dt p in
  p_jumping q = (keyUp keys) /\
  (keyUp keys && negb (p_jumping p) = true ->
   p_coyote q = ofZ 0 /\ p_dy q = (- PHYS.jumpVel)%num) /\
  (keyUp keys && negb (p_jumping p) = false -> p_coyote q = PHYS.coyoteMs).
Proof.
  intros Harmed. unfold playerPhysics.
  set (p1 := clampFall _).
  assert (Hg : p_grounded p1 = p_grounded p).
  { unfold p1, clampFall, applyGravity, clampSpeed, applyFriction, applyMove.
    case_ifs; reflexivity. }
  assert (Hc : p_coyote p1 = p_coyote p).
  { unfold p1, clampFall, applyGravity, clampSpeed, applyFriction, applyMove.
    case_ifs; reflexivity. }
  assert (Hj : p_jumping p1 = p_jumping p).
  { unfold p1, clampFall, applyGravity, clampSpeed, applyFriction, applyMove.
    case_ifs; reflexivity. }
  unfold jumpArmed in Harmed.
  unfold jumpLogic, jumpTriggers, coyoteTime.
  cbn [p_coyote p_grounded p_jumping set_coyote]. rewrite Hg, Hc, Hj, Harmed.
  change (PHYS.coyoteMs >? ofZ 0)%num with true. rewrite orb_true_r, andb_true_r.
  destruct (keyUp keys), (p_jumping p); simpl; repeat split;
    try discriminate; exact Hj.
Qed.

Lemma tryPlayerMoveX_jump lvl p dt q :
  tryPlayerMoveX lvl p dt = Ok q ->
  p_coyote q = p_coyote p /\ p_jumping q = p_jumping p /\ p_dy q = p_dy p.
Proof.
  rewrite tryPlayerMoveX_closed.
  destruct (rowsX p dt); [intros [= <-]; repeat split|].
  unfold bind. destruct (probeX lvl p dt) as [t|]; [|discriminate].
  intros [= <-]. destruct (stopsSweep t); repeat split.
Qed.

Lemma tryPlayerMoveY_jump lvl p dt :
  let q := tryPlayerMoveY lvl p dt in
  p_jumping q = p_jumping p /\
  (p_coyote q = PHYS.coyoteMs \/
   p_coyote q = p_coyote p) /\
  ((p_dy p >=? ofZ 0)%num = false -> p_coyote q = p_coyote p).
Proof.
  cbv zeta.
  destruct (p_dy p >=? ofZ 0)%num eqn:Hge.
  - rewrite (tryPlayerMoveY_down _ _ _ Hge).
    destruct (existsb _ _); repeat split; auto; discriminate.
  - destruct (p_dy p <? ofZ 0)%num eqn:Hlt.
    + rewrite (tryPlayerMoveY_up _ _ _ Hlt).
      destruct (existsb _ _); repeat split; auto.
    + unfold tryPlayerMoveY. rewrite Hge, Hlt. repeat split; auto.
Qed.

Lemma deathRespawn_jump lvl dt pl :
  p_coyote (deathRespawn lvl dt pl) = p_coyote pl /\
  p_jumping (deathRespawn lvl dt pl) = p_jumping pl.
Proof. unfold deathRespawn. case_ifs; split; reflexivity. Qed.

(** The coyote timer and the jump latch after a step that starts with
    a jump available. *)
Lemma step_coyote (pow : num -> num -> num) st keys dt st' :
  jumpArmed (player st) = true ->
  stepGame pow st keys dt = Ok st' ->
  p_jumping (player st') = keyUp keys /\
  p_coyote (player st') =
    (if keyUp keys && negb (p_jumping (player st))
     then ofZ 0 else PHYS.coyoteMs).
Proof.
  intros Harmed H.
  destruct (stepGame_inv _ _ _ _ H) as (movedY & es & flag & Hm & _ & _ & _ & ->).
  change (player (finishStep st dt ?e flag))
    with (clampToWorld (level st) (deathRespawn (level st) dt (ep_player e))).
  change (p_jumping (clampToWorld ?l ?q)) with (p_jumping q).
  change (p_coyote (clampToWorld ?l ?q)) with (p_coyote q).
  destruct (deathRespawn_jump (level st) dt
              (ep_player (enemyLoop (lives st) 0 es movedY))) as (-> & ->).
  destruct (enemyLoop_sameBody (lives st) es 0 movedY)
    as (_ & _ & _ & _ & _ & -> & ->).
  unfold movePlayer, bind in Hm.
  destruct (tryPlayerMoveX _ _ _) as [mx|] eqn:Hx; [|discriminate].
  injection Hm as <-.
  assert (Hcoy : forall q, p_coyote (updateAnim dt q) = p_coyote q)
    by (intros q; unfold updateAnim; case_ifs; reflexivity).
  assert (Hjmp : forall q, p_jumping (updateAnim dt q) = p_jumping q)
    by (intros q; unfold updateAnim; case_ifs; reflexivity).
  rewrite Hcoy, Hjmp.
  destruct (tryPlayerMoveX_jump _ _ _ Hx) as (Hxc & Hxj & Hxd).
  destruct (tryPlayerMoveY_jump (level st) mx dt) as (Hyj & Hyc & Hyn).
  destruct (playerPhysics_armed pow keys dt (player st) Harmed) as (Pj & Pjump & Pno).
  rewrite Hyj, Hxj, Pj. split; [reflexivity|].
  destruct (keyUp keys && negb (p_jumping (player st))) eqn:Hk.
  - destruct (Pjump eq_refl) as (Pc & Pd).
    rewrite Hyn; [congruence|]. rewrite Hxd, Pd. reflexivity.
  - specialize (Pno eq_refl). destruct Hyc as [-> | ->]; congruence.
Qed.

Lemma coyoteMs_armed (p : Player) :
  p_coyote p = PHYS.coyoteMs -> jumpArmed p = true.
Proof. unfold jumpArmed. intros ->. apply orb_true_r. Qed.

(** Frames without the jump key keep a jump available and the latch
    open. *)
Lemma runFrames_idle_armed (pow : num -> num -> num) frames :
  forall st st1,
    Forall (fun f : Keys * num => keyUp (fst f) = false) frames ->
    jumpArmed (player st) = true ->
    p_jumping (player st) = false ->
    runFrames pow st frames = Ok st1 ->
    jumpArmed (player st1) = true /\ p_jumping (player st1) = false /\
    (frames <> [] -> p_coyote (player st1) = PHYS.coyoteMs).
Proof.
  induction frames as [|[keys dt] rest IH]; intros st st1 Hidle Harmed Hj Hrun.
  - injection Hrun as <-. repeat split; auto. congruence.
  - cbn [runFrames] in Hrun. unfold bind in Hrun.
    destruct (stepGame pow st keys dt) as [st'|] eqn:Hstep; [|discriminate].
    inversion Hidle as [|f l Hk Hrest]; subst. cbn [fst] in Hk.
    destruct (@step_coyote pow _ _ _ _ Harmed Hstep) as (Hj' & Hc').
    rewrite Hk in Hj', Hc'. cbn [andb] in Hc'.
    destruct (IH st' st1 Hrest (@coyoteMs_armed _ Hc') Hj' Hrun) as (Ha & Hj1 & Hc1).
    split; [exact Ha|]. split; [exact Hj1|]. intros _.
    destruct rest as [|f rest']; [|apply Hc1; discriminate].
    injection Hrun as <-. exact Hc'.
Qed.

(** C10: the coyote timer never decays while armed.  In a step that
    starts airborne with a positive timer the timer is set to its full
    value [PHYS.coyoteMs], unless that step triggers a jump (jump key
    down, latch open), which sets it to zero; so it only leaves its
    full value when a jump consumes it.  Hence after any number of
    frames without the jump key, a frame with the jump key still
    triggers a jump: the latch closes and the timer is consumed. *)
Theorem coyote_timer_never_decays :
  forall (pow : num -> num -> num),
    (forall st keys dt st',
        stepGame pow st keys dt = Ok st' ->
        p_grounded (player st) = false ->
        (p_coyote (player st) >? ofZ 0)%num = true ->
        p_coyote (player st') =
          (if keyUp keys && negb (p_jumping (player st))
           then ofZ 0 else PHYS.coyoteMs) /\
        (p_coyote (player st') <> PHYS.coyoteMs ->
         keyUp keys = true /\ p_jumping (player st) = false /\
         p_jumping (player st') = true)) /\
    (forall frames st st1 keys dt st2,
        Forall (fun f : Keys * num => keyUp (fst f) = false) frames ->
        p_grounded (player st) = false ->
        (p_coyote (player st) >? ofZ 0)%num = true ->
        p_jumping (player st) = false ->
        runFrames pow st frames = Ok st1 ->
        keyUp keys = true ->
        stepGame pow st1 keys dt = Ok st2 ->
        (frames <> [] -> p_coyote (player st1) = PHYS.coyoteMs) /\
        p_jumping (player st1) = false /\
        p_jumping (player st2) = true /\
        p_coyote (player st2) = ofZ 0).
Proof.
  intros pow. split.
  - intros st keys dt st' H Hair Hpos.
    assert (Harmed : jumpArmed (player st) = true)
      by (unfold jumpArmed; rewrite Hpos; apply orb_true_r).
    destruct (@step_coyote pow _ _ _ _ Harmed H) as (Hj & Hc).
    split; [exact Hc|]. intros Hne. rewrite Hc in Hne.
    destruct (keyUp keys) eqn:Hk, (p_jumping (player st)) eqn:Hp; simpl in Hne;
      try congruence.
    repeat split. exact Hj.
  - intros frames st st1 keys dt st2 Hidle Hair Hpos Hj Hrun Hk Hstep.
    assert (Harmed : jumpArmed (player st) = true)
      by (unfold jumpArmed; rewrite Hpos; apply orb_true_r).
    destruct (@runFrames_idle_armed pow _ _ _ Hidle Harmed Hj Hrun) as (Ha1 & Hj1 & Hc1).
    destruct (@step_coyote pow _ _ _ _ Ha1 Hstep) as (Hj2 & Hc2).
    rewrite Hk, Hj1 in Hc2. rewrite Hk in Hj2.
    repeat split; assumption.
Qed.

Lemma coyote_timer_never_decays_witness :
  exists st1 st2,
    runFrames pow_interp stOffLedge (repeat (noKeys, dt64) 20) = Ok st1 /\
    stepGame pow_interp st1 jumpKey dt64 = Ok st2 /\
    p_grounded (player st1) = false /\
    p_coyote (player st1) = PHYS.coyoteMs /\
    p_jumping (player st2) = true /\ p_coyote (player st2) = ofZ 0.
Proof.
  assert (H1 : {st1 | runFrames pow_interp stOffLedge (repeat (noKeys, dt64) 20)
                      = Ok st1 /\ p_grounded (player st1) = false /\
                      exists st2, stepGame pow_interp st1 jumpKey dt64 = Ok st2})
    by (eexists; split; [vm_compute; reflexivity|];
        split; [reflexivity|]; eexists; vm_compute; reflexivity).
  destruct H1 as [st1 (H1 & Hg & st2 & H2)].
  assert (Hidle : Forall (fun f : Keys * num => keyUp (fst f) = false)
                    (repeat (noKeys, dt64) 20))
    by (repeat constructor).
  destruct (@coyote_timer_never_decays pow_interp) as (_ & Hrun).
  destruct (Hrun _ stOffLedge st1 jumpKey dt64 st2 Hidle eq_refl eq_refl eq_refl
              H1 eq_refl H2) as (Hc1 & _ & Hj2 & Hc2).
  exists st1, st2. split; [exact H1|]. split; [exact H2|].
  split; [exact Hg|]. split; [apply Hc1; discriminate|].
  split; [exact Hj2|exact Hc2].
Defined.

(* ------------------------------------------------------------------ *)
(** *** The step returns

    Over a grid that has all its declared rows, a step with finite
    numbers and a finite time delta throws nothing, and its state has
    finite numbers again: a session never throws as long as the frame
    clock delivers numbers. *)

Lemma isFin_lift2 f a b : isFin (lift2 f a b) = isFin a && isFin b.
Proof. destruct a, b; reflexivity. Qed.

Lemma isFin_nadd a b : isFin (a + b)%num = isFin a && isFin b.
Proof. apply isFin_lift2. Qed.

Lemma isFin_nsub a b : isFin (a - b)%num = isFin a && isFin b.
Proof. apply isFin_lift2. Qed.

Lemma isFin_nmul a b : isFin (a * b)%num = isFin a && isFin b.
Proof. apply isFin_lift2. Qed.

Lemma isFin_max a b : isFin (Math_max a b) = isFin a && isFin b.
Proof. apply isFin_lift2. Qed.

Lemma isFin_min a b : isFin (Math_min a b) = isFin a && isFin b.
Proof. apply isFin_lift2. Qed.

Lemma isFin_clamp v a b : isFin (clamp v a b) = isFin a && (isFin b && isFin v).
Proof. unfold clamp. now rewrite isFin_max, isFin_min. Qed.

Lemma isFin_ndiv a (k : Z) : k <> 0%Z -> isFin (a / ofZ k)%num = isFin a.
Proof.
  intros Hk. destruct a as [|x]; [reflexivity|]. unfold ndiv, ofZ.
  destruct (Qeq_bool (inject_Z k) 0) eqn:E; [|reflexivity].
  apply Qeq_bool_iff in E. unfold Qeq, inject_Z in E. simpl in E. lia.
Qed.

Lemma isFin_floor a : isFin (Math_floor a) = isFin a.
Proof. destruct a; reflexivity. Qed.

Lemma isFin_abs a : isFin (Math_abs a) = isFin a.
Proof. destruct a; reflexivity. Qed.

Lemma isFin_neg a : isFin (- a)%num = isFin a.
Proof. destruct a; reflexivity. Qed.

Lemma isFin_ofZ z : isFin (ofZ z) = true.
Proof. reflexivity. Qed.

Lemma isFin_lit n d : isFin (lit n d) = true.
Proof. reflexivity. Qed.

Ltac fin_simp :=
  repeat first
    [ rewrite isFin_nadd | rewrite isFin_nsub | rewrite isFin_nmul
    | rewrite isFin_max | rewrite isFin_min | rewrite isFin_clamp
    | rewrite isFin_floor | rewrite isFin_abs | rewrite isFin_neg
    | rewrite isFin_ofZ | rewrite isFin_lit
    | rewrite isFin_ndiv by discriminate ].




Lemma finEnemy_iff e :
  finEnemy e = true <->
  isFin (e_x e) = true /\ isFin (e_y e) = true /\ isFin (e_dx e) = true /\
  isFin (e_w e) = true /\ isFin (e_h e) = true /\
  isFin (pr_min (e_patrolRange e)) = true /\
  isFin (pr_max (e_patrolRange e)) = true.
Proof. unfold finEnemy. rewrite !andb_true_iff. tauto. Qed.














Lemma pow_interp_finite : powFinite pow_interp.
Proof. intros [|a] [|b]; try discriminate. reflexivity. Qed.


(* ------------------------------------------------------------------ *)
(** *** The concrete runs do not depend on the stand-in for [Math.pow]

    The friction factor multiplies the horizontal velocity; a player at
    rest with no direction key down keeps velocity zero whatever the
    factor is.  All concrete states above are of this kind. *)

Lemma nmul_zero_fin (a : num) : isFin a = true -> (ofZ 0 * a)%num = ofZ 0.
Proof.
  destruct a as [|q]; [discriminate|]. intros _.
  unfold nmul, lift2, ofZ. apply f_equal.
  transitivity (Qred 0); [|reflexivity].
  apply Qred_complete. unfold inject_Z. ring.
Qed.

Lemma idle_step_any_pow (pow : num -> num -> num) st keys dt :
  powFinite pow -> isFin dt = true ->
  keyLeft keys = false -> keyRight keys = false ->
  p_dx (player st) = ofZ 0 ->
  stepGame pow st keys dt = stepGame pow_interp st keys dt.
Proof.
  intros Hpow Hdt Hl Hr Hdx.
  assert (Hphys : playerPhysics pow keys dt (player st) =
                  playerPhysics pow_interp keys dt (player st)).
  { unfold playerPhysics. do 5 f_equal.
    unfold applyMove. rewrite Hl, Hr. unfold applyFriction. rewrite Hdx.
    assert (Hfin : forall f, powFinite f ->
              isFin (if p_grounded (player st)
                     then f PHYS.frictionGround (dt * ofZ 60)%num
                     else f PHYS.frictionAir (dt * ofZ 60)%num) = true).
    { intros f Hf. destruct (p_grounded (player st)); apply Hf;
        try reflexivity; now rewrite isFin_nmul, Hdt. }
    now rewrite (nmul_zero_fin _ (Hfin pow Hpow)),
                (nmul_zero_fin _ (Hfin pow_interp pow_interp_finite)). }
  unfold stepGame, movePlayer. now rewrite Hphys.
Qed.

(* ================================================================== *)
(** ** Further properties of the sources *)

Unset Implicit Arguments.

(* ------------------------------------------------------------------ *)
(** *** engine.js: clamp, rectangles, tile coordinates *)

Lemma nleP_fin (x y : Q) : nleP (Fin x) (Fin y) <-> (x <= y)%Q.
Proof. unfold nleP, nle, cmp2. apply Qle_bool_iff. Qed.

Lemma nltP_fin (x y : Q) : nltP (Fin x) (Fin y) <-> (x < y)%Q.
Proof.
  unfold nltP, nlt, cmp2, Qlt_bool. rewrite negb_true_iff. split.
  - intros H. apply Qnot_le_lt. intros Hle. apply Qle_bool_iff in Hle. congruence.
  - intros H. apply not_true_is_false. intros Hle. apply Qle_bool_iff in Hle.
    apply (Qlt_not_le _ _ H Hle).
Qed.

Lemma Math_max_fin (x y : Q) :
  Math_max (Fin x) (Fin y) = Fin (Qred (Qmax x y)).
Proof.
  unfold Math_max, lift2. f_equal. apply Qred_complete.
  destruct (Qle_bool x y) eqn:E.
  - apply Qle_bool_iff in E. symmetry. now apply Q.max_r.
  - symmetry. apply Q.max_l. apply Qlt_le_weak, Qnot_le_lt.
    intros Hle. apply Qle_bool_iff in Hle. congruence.
Qed.

Lemma clamp_fin (v a b : Q) :
  exists r, clamp (Fin v) (Fin a) (Fin b) = Fin r /\ (r == Qmax a (Qmin b v))%Q.
Proof.
  unfold clamp. rewrite Math_min_fin, Math_max_fin. eexists. split; [reflexivity|].
  rewrite Qred_correct. apply Q.max_compat; [reflexivity|apply Qred_correct].
Qed.

Lemma isFin_true (a : num) : isFin a = true -> exists q, a = Fin q.
Proof. destruct a as [|q]; [discriminate|]. now exists q. Qed.

Lemma clamp_facts v mn mx :
  isFin v = true -> isFin mn = true -> isFin mx = true ->
  nleP mn (clamp v mn mx) /\
  (nleP mn mx -> nleP (clamp v mn mx) mx) /\
  (nleP mn v -> nleP v mx -> nsame (clamp v mn mx) v) /\
  (nltP mx mn -> nsame (clamp v mn mx) mn).
Proof.
  intros Hv Hmn Hmx.
  destruct (isFin_true _ Hv) as (x & ->).
  destruct (isFin_true _ Hmn) as (a & ->).
  destruct (isFin_true _ Hmx) as (b & ->).
  destruct (clamp_fin x a b) as (r & -> & Hr).
  rewrite !nleP_fin, nltP_fin. unfold nsame.
  destruct (Q.max_spec a (Qmin b x)) as [(H1 & H2) | (H1 & H2)];
    destruct (Q.min_spec b x) as [(H3 & H4) | (H3 & H4)];
    rewrite H2 in Hr; try rewrite H4 in Hr; try rewrite H4 in H1;
    repeat split; intros; lra.
Qed.

(** X1.  [clamp] on numbers: the result is never below [min]; it is at
    most [max] when [min <= max]; it is the value itself when that lies
    between them; and it is [min] when the bounds are crossed.  With a
    [NaN] among the arguments the result is [NaN]. *)
Theorem clamp_range :
  (forall v mn mx,
      isFin v = true -> isFin mn = true -> isFin mx = true ->
      nleP mn (clamp v mn mx) /\
      (nleP mn mx -> nleP (clamp v mn mx) mx) /\
      (nleP mn v -> nleP v mx -> nsame (clamp v mn mx) v) /\
      (nltP mx mn -> nsame (clamp v mn mx) mn)) /\
  (forall v mn mx,
      isFin v && isFin mn && isFin mx = false -> clamp v mn mx = NaN).
Proof.
  split; [exact clamp_facts|].
  intros [|x] [|a] [|b]; try reflexivity. discriminate.
Qed.

Lemma clamp_range_witness :
  nleP (ofZ 0) (clamp (ofZ 800) (ofZ 0) (ofZ 750)) /\
  nleP (clamp (ofZ 800) (ofZ 0) (ofZ 750)) (ofZ 750) /\
  nsame (clamp (ofZ 300) (ofZ 0) (ofZ 750)) (ofZ 300) /\
  nsame (clamp (ofZ 5) (ofZ 0) (ofZ (-6))) (ofZ 0).
Proof.
  destruct clamp_range as (H & _).
  destruct (H (ofZ 800) (ofZ 0) (ofZ 750) eq_refl eq_refl eq_refl) as (H1 & H2 & _).
  destruct (H (ofZ 300) (ofZ 0) (ofZ 750) eq_refl eq_refl eq_refl) as (_ & _ & H3 & _).
  destruct (H (ofZ 5) (ofZ 0) (ofZ (-6)) eq_refl eq_refl eq_refl) as (_ & _ & _ & H4).
  split; [exact H1|]. split; [apply H2; reflexivity|].
  split; [apply H3; reflexivity|]. apply H4. reflexivity.
Defined.

Lemma nlt_nsame_false (a b : num) : nsame a b -> (b <? a)%num = false.
Proof.
  destruct a as [|x], b as [|y]; simpl; try reflexivity; try contradiction.
  intros H. unfold nlt, cmp2, Qlt_bool. apply negb_false_iff, Qle_bool_iff.
  rewrite H. apply Qle_refl.
Qed.

(** X2.  [rectsCollide] is symmetric; two boxes that only touch along
    an edge do not collide; and a collision is only ever reported
    between boxes whose coordinates and sizes are all numbers. *)
Theorem rectsCollide_symmetric_open :
  (forall a b, rectsCollide a b = rectsCollide b a) /\
  (forall a b, nsame (rx a + rw a)%num (rx b) -> rectsCollide a b = false) /\
  (forall a b, nsame (ry a + rh a)%num (ry b) -> rectsCollide a b = false) /\
  (forall a b, rectsCollide a b = true ->
               isFin (rx a) && isFin (ry a) && isFin (rw a) && isFin (rh a) &&
               isFin (rx b) && isFin (ry b) && isFin (rw b) && isFin (rh b) = true).
Proof.
  repeat split.
  - intros a b. unfold rectsCollide, ngt.
    destruct (rx a <? rx b + rw b)%num, (rx b <? rx a + rw a)%num,
             (ry a <? ry b + rh b)%num, (ry b <? ry a + rh a)%num; reflexivity.
  - intros a b H. unfold rectsCollide, ngt. rewrite (nlt_nsame_false _ _ H).
    now rewrite andb_false_r.
  - intros a b H. unfold rectsCollide, ngt. rewrite (nlt_nsame_false _ _ H).
    now rewrite andb_false_r.
  - intros [[|ax] [|ay] [|aw] [|ah]] [[|bx] [|bY] [|bw] [|bh]];
      unfold rectsCollide, ngt; cbn [rx ry rw rh nadd lift2 nlt cmp2 isFin andb];
      intros H; try reflexivity; try discriminate;
      repeat rewrite ?andb_false_r, ?andb_false_l in H; discriminate.
Qed.

Lemma rectsCollide_symmetric_open_witness :
  rectsCollide (mkRect (ofZ 0) (ofZ 0) (ofZ 18) (ofZ 22))
               (mkRect (ofZ 18) (ofZ 0) (ofZ 20) (ofZ 18)) = false /\
  isFin (rw (mkRect (ofZ 17) (ofZ 0) (ofZ 18) (ofZ 22))) = true.
Proof.
  destruct rectsCollide_symmetric_open as (_ & Htouch & _ & Hfin).
  split.
  - apply Htouch. reflexivity.
  - pose proof (Hfin (mkRect (ofZ 17) (ofZ 0) (ofZ 18) (ofZ 22))
                     (mkRect (ofZ 18) (ofZ 0) (ofZ 20) (ofZ 18)) eq_refl) as H.
    rewrite !andb_true_iff in H. tauto.
Defined.

Lemma Qfloor_between (q : Q) (z : Z) :
  (inject_Z z <= q)%Q -> (q < inject_Z (z + 1))%Q -> Qfloor q = z.
Proof.
  intros Hlo Hhi.
  pose proof (Qfloor_le q) as H1. pose proof (Qlt_floor q) as H2.
  assert (A : (z < Qfloor q + 1)%Z).
  { rewrite Zlt_Qlt. eapply Qle_lt_trans; eassumption. }
  assert (B : (Qfloor q < z + 1)%Z).
  { rewrite Zlt_Qlt. eapply Qle_lt_trans; eassumption. }
  lia.
Qed.

Lemma floor_div_tile (x : Q) (tx : Z) :
  (inject_Z (24 * tx) <= x)%Q -> (x < inject_Z (24 * tx + 24))%Q ->
  Math_floor (Fin x / TILE_SIZE) = ofZ tx.
Proof.
  intros Hlo Hhi. unfold TILE_SIZE, ndiv, ofZ.
  change (Qeq_bool (inject_Z 24) 0) with false. cbv iota. unfold Math_floor, ofZ.
  do 2 f_equal. rewrite Qred_correct.
  apply Qfloor_between.
  - apply Qle_shift_div_l; [reflexivity|].
    rewrite <- inject_Z_mult. now rewrite Z.mul_comm.
  - apply Qlt_shift_div_r; [reflexivity|].
    rewrite <- inject_Z_mult.
    now replace ((tx + 1) * 24)%Z with (24 * tx + 24)%Z by lia.
Qed.

Lemma px2tile_inTile x y tx ty :
  inTile x y tx ty -> px2tile (Fin x) (Fin y) = (ofZ tx, ofZ ty).
Proof.
  intros (H1 & H2 & H3 & H4). unfold px2tile.
  now rewrite (floor_div_tile _ _ H1 H2), (floor_div_tile _ _ H3 H4).
Qed.

(** X3.  Tile and pixel coordinates: every point of a tile maps back to
    the indices of that tile, and converting tile indices to pixels and
    back is the identity. *)
Theorem px2tile_tile2px :
  (forall x y tx ty, inTile x y tx ty ->
                     px2tile (Fin x) (Fin y) = (ofZ tx, ofZ ty)) /\
  (forall tx ty : Z,
      px2tile (fst (tile2px (ofZ tx) (ofZ ty))) (snd (tile2px (ofZ tx) (ofZ ty)))
      = (ofZ tx, ofZ ty)).
Proof.
  split; [exact px2tile_inTile|].
  intros tx ty. unfold tile2px, TILE_SIZE, nmul, lift2, ofZ. cbn [fst snd].
  apply px2tile_inTile. unfold inTile. rewrite !Qred_correct, <- !inject_Z_mult.
  rewrite <- !Zle_Qle, <- !Zlt_Qlt. lia.
Qed.

Lemma px2tile_tile2px_witness :
  px2tile (Fin (759 # 1)) (Fin (181 # 1)) = (ofZ 31, ofZ 7).
Proof.
  destruct px2tile_tile2px as (H & _).
  apply H. unfold inTile. repeat split; vm_compute; congruence.
Defined.

Lemma arrGet_ofZ_nth {A : Type} (l : list A) (z : Z) :
  (0 <= z)%Z -> arrGet l (ofZ z) = nth_error l (Z.to_nat z).
Proof.
  intros Hz. unfold arrGet, ofZ. rewrite Qfloor_Z, Qeq_bool_refl.
  now replace (0 <=? z)%Z with true by (symmetry; apply Z.leb_le; lia).
Qed.

Lemma ofZ_lt (a b : Z) : (ofZ a <? ofZ b)%num = (a <? b)%Z.
Proof.
  unfold nlt, cmp2, ofZ, Qlt_bool.
  destruct (a <? b)%Z eqn:E.
  - apply Z.ltb_lt in E. apply negb_true_iff, not_true_is_false.
    intros H. apply Qle_bool_iff in H. rewrite <- Zle_Qle in H. lia.
  - apply Z.ltb_ge in E. apply negb_false_iff, Qle_bool_iff.
    now rewrite <- Zle_Qle.
Qed.

Lemma ofZ_le (a b : Z) : (ofZ a <=? ofZ b)%num = (a <=? b)%Z.
Proof.
  unfold nle, cmp2, ofZ.
  destruct (a <=? b)%Z eqn:E.
  - apply Z.leb_le in E. apply Qle_bool_iff. now rewrite <- Zle_Qle.
  - apply Z.leb_gt in E. apply not_true_is_false.
    intros H. apply Qle_bool_iff in H. rewrite <- Zle_Qle in H. lia.
Qed.

(** X4.  [getTile] at a point of the tile [(tx, ty)]: outside the
    declared bounds it answers air and never throws, whatever the grid
    holds; inside them it reads [tiles[ty][tx]], which is [undefined]
    when the row is too short and throws when the row is absent. *)
Theorem getTile_bounds :
  forall lvl x y tx ty,
    inTile x y tx ty ->
    (~ inBounds lvl tx ty -> getTile lvl (Fin x) (Fin y) = Ok (Some 0%Z)) /\
    (inBounds lvl tx ty ->
     getTile lvl (Fin x) (Fin y) =
     match nth_error (tiles lvl) (Z.to_nat ty) with
     | None => TypeError
     | Some row => Ok (nth_error row (Z.to_nat tx))
     end).
Proof.
  intros lvl x y tx ty Hin. unfold getTile.
  rewrite (px2tile_inTile _ _ _ _ Hin).
  unfold nge. rewrite !ofZ_lt, !ofZ_le. unfold inBounds. split.
  - intros Hout.
    destruct (tx <? 0)%Z eqn:E1; [reflexivity|].
    destruct (width lvl <=? tx)%Z eqn:E2; [reflexivity|].
    destruct (ty <? 0)%Z eqn:E3; [reflexivity|].
    destruct (height lvl <=? ty)%Z eqn:E4; [reflexivity|].
    apply Z.ltb_ge in E1, E3. apply Z.leb_gt in E2, E4. lia.
  - intros ((H1 & H2) & (H3 & H4)).
    replace (tx <? 0)%Z with false by (symmetry; apply Z.ltb_ge; lia).
    replace (width lvl <=? tx)%Z with false by (symmetry; apply Z.leb_gt; lia).
    replace (ty <? 0)%Z with false by (symmetry; apply Z.ltb_ge; lia).
    replace (height lvl <=? ty)%Z with false by (symmetry; apply Z.leb_gt; lia).
    cbn [orb]. rewrite (arrGet_ofZ_nth _ _ H3).
    destruct (nth_error (tiles lvl) (Z.to_nat ty)); [|reflexivity].
    now rewrite (arrGet_ofZ_nth _ _ H1).
Qed.

Lemma getTile_bounds_witness :
  getTile level1 (Fin (-(5 # 1))) (Fin (181 # 1)) = Ok (Some 0%Z) /\
  getTile level1 (Fin (759 # 1)) (Fin (181 # 1)) = Ok (Some 5%Z) /\
  getTile raggedLevel (Fin (30 # 1)) (Fin (50 # 1)) = TypeError /\
  getTile raggedLevel (Fin (80 # 1)) (Fin (30 # 1)) = Ok None.
Proof.
  assert (I1 : inTile (-(5 # 1)) (181 # 1) (-1) 7)
    by (unfold inTile; repeat split; vm_compute; congruence).
  assert (I2 : inTile (759 # 1) (181 # 1) 31 7)
    by (unfold inTile; repeat split; vm_compute; congruence).
  assert (I3 : inTile (30 # 1) (50 # 1) 1 2)
    by (unfold inTile; repeat split; vm_compute; congruence).
  assert (I4 : inTile (80 # 1) (30 # 1) 3 1)
    by (unfold inTile; repeat split; vm_compute; congruence).
  split.
  - apply (proj1 (getTile_bounds level1 _ _ _ _ I1)). unfold inBounds. simpl. lia.
  - split; [|split].
    + rewrite (proj2 (getTile_bounds level1 _ _ _ _ I2)); [reflexivity|].
      unfold inBounds. simpl. lia.
    + rewrite (proj2 (getTile_bounds raggedLevel _ _ _ _ I3)); [reflexivity|].
      unfold inBounds. simpl. lia.
    + rewrite (proj2 (getTile_bounds raggedLevel _ _ _ _ I4)); [reflexivity|].
      unfold inBounds. simpl. lia.
Defined.

(* ------------------------------------------------------------------ *)
(** *** engine.js and Game.js: loading a level *)

Lemma tileIs_Some (k : Z) (t : tile) : tileIs k t = true <-> t = Some k.
Proof.
  destruct t as [z|]; simpl; [|split; discriminate].
  rewrite Z.eqb_eq. split; congruence.
Qed.

Lemma scanRow_In sel w y row t :
  In t (scanRow sel w y row) <->
  exists k, (k < Z.to_nat w)%nat /\ sel (nth_error row k) = true /\
            t = mkTilePos (Z.of_nat k) (Z.of_nat y).
Proof.
  unfold scanRow. rewrite in_flat_map. split.
  - intros (k & Hk & Ht). apply in_seq in Hk.
    destruct (sel (nth_error row k)) eqn:E; [|contradiction].
    destruct Ht as [<- | []]. exists k. repeat split; auto. lia.
  - intros (k & Hk & Hs & ->). exists k. split; [apply in_seq; lia|].
    rewrite Hs. now left.
Qed.

Lemma scanRows_In sel w rows :
  forall y t,
    In t (scanRows sel w y rows) <->
    exists j k row,
      nth_error rows j = Some row /\ (k < Z.to_nat w)%nat /\
      sel (nth_error row k) = true /\
      t = mkTilePos (Z.of_nat k) (Z.of_nat (y + j)).
Proof.
  induction rows as [|row rest IH]; intros y t; cbn [scanRows].
  - split; [contradiction|]. intros (j & k & r & Hj & _). destruct j; discriminate.
  - rewrite in_app_iff, scanRow_In, IH. split.
    + intros [(k & Hk & Hs & ->) | (j & k & r & Hj & Hk & Hs & ->)].
      * exists 0%nat, k, row. rewrite Nat.add_0_r. repeat split; auto.
      * exists (S j), k, r. repeat split; auto. f_equal. lia.
    + intros ([|j] & k & r & Hj & Hk & Hs & ->).
      * left. cbn in Hj. inversion Hj; subst r. exists k. rewrite Nat.add_0_r.
        repeat split; auto.
      * right. exists j, k, r. repeat split; auto. f_equal. lia.
Qed.

(** X5.  The loaders find exactly the markers of the grid: a position
    is among the coins (the enemy starts) of a level if and only if its
    row exists, its column is below the declared width and the tile
    there is 3 (is 4).  Tiles beyond the declared width are ignored and
    missing tiles of a short row are no markers. *)
Theorem loaders_find_markers :
  forall lvl t,
    (In t (findCoins lvl) <->
     exists j k row,
       nth_error (tiles lvl) j = Some row /\ (k < Z.to_nat (width lvl))%nat /\
       nth_error row k = Some 3%Z /\
       t = mkTilePos (Z.of_nat k) (Z.of_nat j)) /\
    (In t (sp_enemies (findSpawns lvl)) <->
     exists j k row,
       nth_error (tiles lvl) j = Some row /\ (k < Z.to_nat (width lvl))%nat /\
       nth_error row k = Some 4%Z /\
       t = mkTilePos (Z.of_nat k) (Z.of_nat j)).
Proof.
  intros lvl t. unfold findCoins, findSpawns. cbn [sp_enemies].
  rewrite !scanRows_In. unfold isCoin, isEnemy.
  split; split; intros (j & k & row & Hj & Hk & Hs & Ht); exists j, k, row;
    (split; [exact Hj|]); (split; [exact Hk|]);
    (split; [first [now apply tileIs_Some | now apply tileIs_Some in Hs]|]);
    exact Ht.
Qed.


(* ------------------------------------------------------------------ *)
(** *** Game.js: enemies *)

Lemma nlt_false_nleP (a b : num) :
  isFin a = true -> isFin b = true -> (a <? b)%num = false -> nleP b a.
Proof.
  destruct a as [|x], b as [|y]; try discriminate. intros _ _.
  unfold nlt, cmp2, Qlt_bool, nleP, nle. now rewrite negb_false_iff.
Qed.

Lemma nleP_isFin (a b : num) : nleP a b -> isFin a = true /\ isFin b = true.
Proof. destruct a, b; try discriminate. now split. Qed.

Lemma nleP_refl (a : num) : isFin a = true -> nleP a a.
Proof. destruct a as [|x]; [discriminate|]. intros _. apply nleP_fin, Qle_refl. Qed.

Lemma nleP_trans (a b c : num) : nleP a b -> nleP b c -> nleP a c.
Proof.
  destruct a, b, c; try discriminate. rewrite !nleP_fin. apply Qle_trans.
Qed.

Lemma abs_within (a c : num) :
  nleP (- c)%num a -> nleP a c ->
  nleP (- c)%num (Math_abs a) /\ nleP (Math_abs a) c.
Proof.
  destruct a as [|x], c as [|y]; try discriminate.
  unfold nneg, Math_abs. rewrite !nleP_fin, !Qred_correct. intros H1 H2.
  split.
  - apply Qle_trans with 0%Q; [lra|apply Qabs_nonneg].
  - apply Qabs_Qle_condition. split; assumption.
Qed.

Lemma neg_within (a c : num) :
  nleP (- c)%num a -> nleP a c ->
  nleP (- c)%num (- a)%num /\ nleP (- a)%num c.
Proof.
  destruct a as [|x], c as [|y]; try discriminate.
  unfold nneg. rewrite !nleP_fin, !Qred_correct. intros H1 H2. split; lra.
Qed.

(** One enemy of the enemy pass. *)
Lemma stepEnemy_facts lvl dt e e' :
  stepEnemy lvl dt e = Ok e' ->
  (e_dead e = true -> e' = e) /\
  (e_y e' = e_y e /\ e_dy e' = e_dy e /\ e_w e' = e_w e /\ e_h e' = e_h e /\
   e_dead e' = e_dead e /\ e_patrolRange e' = e_patrolRange e) /\
  (e_dead e = false -> isFin dt = true -> finEnemy e = true ->
   nleP (pr_min (e_patrolRange e)) (pr_max (e_patrolRange e)) ->
   nleP (pr_min (e_patrolRange e)) (e_x e') /\
   nleP (e_x e') (pr_max (e_patrolRange e)) /\
   nleP (- PHYS.enemyPatrolSpeed)%num (e_dx e') /\
   nleP (e_dx e') PHYS.enemyPatrolSpeed).
Proof.
  unfold stepEnemy. destruct (e_dead e) eqn:Hd.
  { intros [= <-]. repeat split; auto; discriminate. }
  set (c := clamp (e_dx e) (- PHYS.enemyPatrolSpeed)%num PHYS.enemyPatrolSpeed).
  set (x1 := (e_x e + c * dt)%num).
  cbn [e_x e_dx e_patrolRange set_e_x set_e_dx].
  fold c. fold x1.
  set (ex := if (x1 <? pr_min (e_patrolRange e))%num then _ else _).
  assert (Hframe : e_y ex = e_y e /\ e_dy ex = e_dy e /\ e_w ex = e_w e /\
                   e_h ex = e_h e /\ e_dead ex = e_dead e /\
                   e_patrolRange ex = e_patrolRange e).
  { unfold ex. destruct (_ <? _)%num; [repeat split|].
    destruct (_ >? _)%num; repeat split. }
  assert (Hrange : isFin dt = true -> finEnemy e = true ->
            nleP (pr_min (e_patrolRange e)) (pr_max (e_patrolRange e)) ->
            nleP (pr_min (e_patrolRange e)) (e_x ex) /\
            nleP (e_x ex) (pr_max (e_patrolRange e)) /\
            nleP (- PHYS.enemyPatrolSpeed)%num (e_dx ex) /\
            nleP (e_dx ex) PHYS.enemyPatrolSpeed).
  { intros Hdt He Hmm. apply finEnemy_iff in He.
    destruct He as (Fx & Fy & Fdx & Fw & Fh & Fmin & Fmax).
    destruct (clamp_facts (e_dx e) (- PHYS.enemyPatrolSpeed)%num
                PHYS.enemyPatrolSpeed Fdx eq_refl eq_refl) as (C1 & C2 & _).
    specialize (C2 eq_refl). fold c in C1, C2.
    assert (Fx1 : isFin x1 = true).
    { unfold x1. rewrite isFin_nadd, isFin_nmul, Fx, Hdt.
      now rewrite (proj1 (nleP_isFin _ _ C2)). }
    unfold ex. destruct (x1 <? pr_min (e_patrolRange e))%num eqn:E1.
    - cbn [e_x e_dx set_e_x set_e_dx].
      destruct (abs_within _ _ C1 C2) as (A1 & A2).
      repeat split; auto. now apply nleP_refl.
    - destruct (x1 >? pr_max (e_patrolRange e))%num eqn:E2.
      + cbn [e_x e_dx set_e_x set_e_dx].
        destruct (abs_within _ _ C1 C2) as (A1 & A2).
        destruct (neg_within _ _ A1 A2) as (N1 & N2).
        repeat split; auto. now apply nleP_refl.
      + cbn [e_x e_dx set_e_x set_e_dx]. repeat split; auto.
        * now apply nlt_false_nleP.
        * now apply nlt_false_nleP. }
  clearbody ex. unfold bind. rewrite Hd in Hframe.
  destruct (getTile lvl _ _) as [t|]; [|discriminate].
  destruct (negb (isGround t)); intros [= <-].
  - split; [discriminate|]. split; [exact Hframe|].
    intros _ Hdt He Hmm. destruct (Hrange Hdt He Hmm) as (R1 & R2 & R3 & R4).
    cbn [e_x e_dx set_e_dx]. destruct (neg_within _ _ R3 R4) as (N1 & N2).
    repeat split; auto.
  - split; [discriminate|]. split; [exact Hframe|].
    intros _. exact Hrange.
Qed.

Lemma step_dt_finite (pow : num -> num -> num) st keys dt st' :
  stepGame pow st keys dt = Ok st' -> isFin dt = true.
Proof.
  destruct dt as [|q]; [|reflexivity].
  rewrite stepGame_NaN. discriminate.
Qed.

Lemma mapM_stepEnemy_kept lvl dt es :
  isFin dt = true ->
  forall es1,
    mapM (stepEnemy lvl dt) es = Ok es1 ->
    forallb finEnemy es = true -> Forall patrolOk es ->
    Forall2 enemyKept es es1.
Proof.
  intros Hdt. induction es as [|e rest IH]; intros es1 H Hfin Hok.
  - injection H as <-. constructor.
  - cbn [mapM] in H. unfold bind in H.
    destruct (stepEnemy lvl dt e) as [e1|] eqn:He; [|discriminate].
    destruct (mapM _ rest) as [rest1|]; [|discriminate].
    injection H as <-.
    cbn [forallb] in Hfin. apply andb_true_iff in Hfin. destruct Hfin as (Fe & Frest).
    inversion Hok as [|? ? Pe Prest]; subst.
    constructor; [|now apply IH].
    destruct (stepEnemy_facts _ _ _ _ He) as (Hdead & (Hy & Hdy & Hw & Hh & _ & Hp) & Hlive).
    unfold enemyKept. repeat (split; [assumption|]).
    destruct (e_dead e) eqn:Hd; [now apply Hdead|].
    now apply Hlive.
Qed.

Lemma enemyLoop_kills_only (stLives : Z) (es : list Enemy) :
  forall i pl,
    Forall2 (fun e1 e' => e' = e1 \/ (e_dead e1 = false /\ e' = set_e_dead true e1))
            es (ep_enemies (enemyLoop stLives i es pl)).
Proof.
  induction es as [|e rest IH]; intros i pl; [constructor|].
  assert (Hrefl : forall l : list Enemy,
             Forall2 (fun e1 e' => e' = e1 \/
                                   (e_dead e1 = false /\ e' = set_e_dead true e1)) l l).
  { induction l; constructor; auto. }
  cbn [enemyLoop].
  destruct (e_dead e) eqn:Hd; [constructor; auto|].
  destruct (rectsCollide _ _); [|constructor; auto].
  destruct (isStomp pl e); [constructor; auto|].
  destruct (_ <=? _)%num; constructor; auto.
Qed.

Lemma enemyKept_fin (e e' : Enemy) :
  enemyKept e e' -> finEnemy e = true -> patrolOk e ->
  patrolOk e' /\ finEnemy e' = true.
Proof.
  intros (Hy & _ & Hw & Hh & Hp & Hcase) Hfin Hok.
  split; [unfold patrolOk; now rewrite Hp|].
  apply finEnemy_iff in Hfin. destruct Hfin as (Fx & Fy & Fdx & Fw & Fh & Fmin & Fmax).
  apply finEnemy_iff. rewrite Hy, Hw, Hh, Hp.
  destruct (e_dead e); [subst e'; repeat split; assumption|].
  destruct Hcase as (H1 & H2 & H3 & H4).
  repeat split; try assumption.
  - apply (nleP_isFin _ _ H2).
  - apply (nleP_isFin _ _ H4).
Qed.

Lemma enemyKept_compose (l l1 : list Enemy) :
  Forall2 enemyKept l l1 ->
  forall l2,
    Forall2 (fun e1 e' => e' = e1 \/ (e_dead e1 = false /\ e' = set_e_dead true e1))
            l1 l2 ->
    Forall2 enemyKept l l2.
Proof.
  induction 1 as [|e e1 l l1 Hk _ IH]; intros l2 H2; inversion H2 as [|? e' ? l2' H3 H4];
    subst; constructor; [|now apply IH].
  destruct H3 as [-> | (Hlive & ->)]; [exact Hk|].
  destruct Hk as (Hy & Hdy & Hw & Hh & Hp & Hcase).
  unfold enemyKept. cbn [e_y e_dy e_w e_h e_patrolRange e_x e_dx set_e_dead].
  repeat (split; [assumption|]).
  destruct (e_dead e) eqn:Hd; [subst e1; congruence|exact Hcase].
Qed.

Lemma enemyKept_hands_on (l l' : list Enemy) :
  Forall2 enemyKept l l' ->
  forallb finEnemy l = true -> Forall patrolOk l ->
  forallb finEnemy l' = true /\ Forall patrolOk l'.
Proof.
  induction 1 as [|e e' l l' Hk _ IH]; intros Hfin Hok.
  - split; [reflexivity|constructor].
  - cbn [forallb] in Hfin. apply andb_true_iff in Hfin. destruct Hfin as (Fe & Frest).
    inversion Hok as [|? ? Pe Prest]; subst.
    destruct (enemyKept_fin _ _ Hk Fe Pe) as (P' & F').
    destruct (IH Frest Prest) as (I1 & I2).
    split; [cbn [forallb]; now rewrite F', I1|now constructor].
Qed.

(** X7.  Enemies in a step, index by index: an enemy keeps its height,
    size and patrol window; a dead enemy is carried over exactly as it
    is; a live enemy ends the step inside its patrol window and with a
    speed of at most the patrol speed.  (For enemies made of numbers
    with non-empty windows, which the step hands on as such.) *)
Theorem enemies_patrol_in_window :
  forall (pow : num -> num -> num) st keys dt st',
    stepGame pow st keys dt = Ok st' ->
    forallb finEnemy (enemies st) = true ->
    Forall patrolOk (enemies st) ->
    Forall2 enemyKept (enemies st) (enemies st') /\
    forallb finEnemy (enemies st') = true /\
    Forall patrolOk (enemies st').
Proof.
  intros pow st keys dt st' H Hfin Hok.
  pose proof (step_dt_finite _ _ _ _ _ H) as Hdt.
  destruct (stepGame_inv _ _ _ _ H) as (movedY & es & flag & _ & Hes & _ & _ & ->).
  change (enemies (finishStep st dt (enemyLoop (lives st) 0 es movedY) flag))
    with (ep_enemies (enemyLoop (lives st) 0 es movedY)).
  pose proof (mapM_stepEnemy_kept _ _ _ Hdt _ Hes Hfin Hok) as H1.
  pose proof (enemyKept_compose _ _ H1 _
                (enemyLoop_kills_only (lives st) es 0 movedY)) as HK.
  split; [exact HK|]. exact (enemyKept_hands_on _ _ HK Hfin Hok).
Qed.

Lemma enemies_patrol_in_window_witness :
  exists st',
    stepGame pow_interp stTwoEnemies noKeys dt64 = Ok st' /\
    Forall2 enemyKept (enemies stTwoEnemies) (enemies st').
Proof.
  assert (H : {st' | stepGame pow_interp stTwoEnemies noKeys dt64 = Ok st'})
    by (eexists; vm_compute; reflexivity).
  destruct H as [st' H]. exists st'. split; [exact H|].
  refine (proj1 (enemies_patrol_in_window pow_interp _ _ _ _ H eq_refl _)).
  repeat constructor.
Defined.

(* ------------------------------------------------------------------ *)
(** *** Game.js: the player after a step *)


















(* ------------------------------------------------------------------ *)
(** *** Game.js: death, respawn and invulnerability *)

Lemma deathRespawn_deadInvuln lvl dt pl :
  p_dead (deathRespawn lvl dt pl) = true ->
  p_invuln (deathRespawn lvl dt pl) = PHYS.invulnMs.
Proof.
  unfold deathRespawn. destruct (p_dead pl) eqn:Hd.
  - cbn [p_respawnTimer set_respawnTimer set_invuln].
    destruct (_ <=? _)%num; [discriminate|reflexivity].
  - destruct (_ >? _)%num; [|congruence].
    cbn [p_invuln set_invuln]. destruct (_ <? _)%num; cbn [p_dead set_invuln];
      congruence.
Qed.

Lemma step_deadInvuln (pow : num -> num -> num) st keys dt st' :
  stepGame pow st keys dt = Ok st' -> deadInvuln st'.
Proof.
  intros H.
  destruct (stepGame_inv _ _ _ _ H) as (movedY & es & flag & _ & _ & _ & _ & ->).
  unfold deadInvuln.
  change (player (finishStep st dt ?e flag))
    with (clampToWorld (level st) (deathRespawn (level st) dt (ep_player e))).
  change (p_dead (clampToWorld ?l ?q)) with (p_dead q).
  change (p_invuln (clampToWorld ?l ?q)) with (p_invuln q).
  apply deathRespawn_deadInvuln.
Qed.

Lemma reachable_deadInvuln (pow : num -> num -> num) st :
  reachable pow st -> deadInvuln st.
Proof.
  induction 1 as [|st keys dt st' _ _ Hstep]; [discriminate|].
  exact (step_deadInvuln _ _ _ _ _ Hstep).
Qed.

(** X11.  No life is lost while waiting for the respawn.  A step always
    ends with the invulnerability timer at its full value if it ends
    with the player dead, so in every state of a session a dead player
    is invulnerable; and a step from such a state with the player dead
    leaves [lives] as it is, whatever overlaps. *)
Theorem dead_player_loses_no_life :
  forall (pow : num -> num -> num),
    (forall st keys dt st', stepGame pow st keys dt = Ok st' -> deadInvuln st') /\
    (forall st, reachable pow st -> deadInvuln st /\ livesCoherent st) /\
    (forall st keys dt st',
        livesCoherent st -> deadInvuln st ->
        p_dead (player st) = true ->
        stepGame pow st keys dt = Ok st' ->
        lives st' = lives st).
Proof.
  intros pow. split; [exact (step_deadInvuln pow)|]. split.
  - intros st Hr. split; [exact (reachable_deadInvuln _ _ Hr)|].
    exact (@reachable_livesCoherent pow st Hr).
  - intros st keys dt st' Hc Hinv Hdead H.
    destruct (@step_lives pow st keys dt st' Hc H) as (ep & Hep & Hl & _).
    destruct (stepGame_inv _ _ _ _ H) as (movedY & es & flag & Hm & _ & Hep' & _ & _).
    rewrite Hep' in Hep. injection Hep as <-.
    destruct (@movePlayer_vitals pow _ _ _ _ _ Hm) as (_ & Hi & _).
    rewrite (@enemyLoop_invulnerable (lives st) es 0 movedY) in Hl; [exact Hl|].
    rewrite Hi, (Hinv Hdead). reflexivity.
Qed.

Lemma dead_player_loses_no_life_witness :
  exists st',
    stepGame pow_interp stDeadOnEnemy noKeys dt64 = Ok st' /\
    lives st' = lives stDeadOnEnemy.
Proof.
  assert (H : {st' | stepGame pow_interp stDeadOnEnemy noKeys dt64 = Ok st'})
    by (eexists; vm_compute; reflexivity).
  destruct H as [st' H]. exists st'. split; [exact H|].
  destruct (dead_player_loses_no_life pow_interp) as (_ & _ & Hd).
  apply (Hd stDeadOnEnemy noKeys dt64 st').
  - right. reflexivity.
  - intros _. reflexivity.
  - reflexivity.
  - exact H.
Defined.

Lemma enemyLoop_invuln (stLives : Z) (es : list Enemy) :
  forall i pl,
    p_invuln (ep_player (enemyLoop stLives i es pl)) =
    if ep_playerDied (enemyLoop stLives i es pl)
    then PHYS.invulnMs else p_invuln pl.
Proof.
  induction es as [|e rest IH]; intros i pl; [reflexivity|].
  cbn [enemyLoop].
  destruct (e_dead e); [apply IH|].
  destruct (rectsCollide _ _); [|apply IH].
  destruct (isStomp pl e); [cbn [ep_player ep_playerDied]; now rewrite IH|].
  destruct (_ <=? _)%num; [reflexivity|apply IH].
Qed.

Lemma deathRespawn_invuln_nonneg lvl dt pl :
  isFin dt = true -> nleP (ofZ 0) (p_invuln pl) ->
  nleP (ofZ 0) (p_invuln (deathRespawn lvl dt pl)).
Proof.
  intros Hdt Hp. unfold deathRespawn. destruct (p_dead pl).
  - cbn [p_respawnTimer set_respawnTimer set_invuln].
    destruct (_ <=? _)%num; reflexivity.
  - destruct (_ >? _)%num; [|exact Hp].
    cbn [p_invuln set_invuln].
    destruct (p_invuln pl - dt * ofZ 1000 <? ofZ 0)%num eqn:E; [reflexivity|].
    cbn [p_invuln set_invuln]. apply nlt_false_nleP; [| reflexivity | exact E].
    fin_simp. now rewrite (proj2 (nleP_isFin _ _ Hp)), Hdt.
Qed.

(** X12.  The invulnerability timer never goes negative: a step from a
    timer at or above zero ends with the timer at or above zero (the
    countdown is floored at zero). *)
Theorem invuln_never_negative :
  forall (pow : num -> num -> num) st keys dt st',
    nleP (ofZ 0) (p_invuln (player st)) ->
    stepGame pow st keys dt = Ok st' ->
    nleP (ofZ 0) (p_invuln (player st')).
Proof.
  intros pow st keys dt st' Hp H.
  pose proof (step_dt_finite _ _ _ _ _ H) as Hdt.
  destruct (stepGame_inv _ _ _ _ H) as (movedY & es & flag & Hm & _ & _ & _ & ->).
  change (player (finishStep st dt ?e flag))
    with (clampToWorld (level st) (deathRespawn (level st) dt (ep_player e))).
  change (p_invuln (clampToWorld ?l ?q)) with (p_invuln q).
  apply deathRespawn_invuln_nonneg; [exact Hdt|].
  rewrite enemyLoop_invuln. destruct (ep_playerDied _); [reflexivity|].
  destruct (@movePlayer_vitals pow _ _ _ _ _ Hm) as (_ & -> & _). exact Hp.
Qed.

Lemma invuln_never_negative_witness :
  exists st',
    stepGame pow_interp
      (withPlayer (set_invuln (ofZ 5) (playerAt 24 96 0 false)) mkInitialGameState)
      noKeys dt64 = Ok st' /\
    nleP (ofZ 0) (p_invuln (player st')).
Proof.
  assert (H : {st' | stepGame pow_interp
      (withPlayer (set_invuln (ofZ 5) (playerAt 24 96 0 false)) mkInitialGameState)
      noKeys dt64 = Ok st'})
    by (eexists; vm_compute; reflexivity).
  destruct H as [st' H]. exists st'. split; [exact H|].
  apply (invuln_never_negative pow_interp
           (withPlayer (set_invuln (ofZ 5) (playerAt 24 96 0 false)) mkInitialGameState)
           noKeys dt64 st'); [reflexivity|exact H].
Defined.

(* ------------------------------------------------------------------ *)
(** *** Game.js: the jump latch *)

Lemma jumpLogic_jumping (w : bool) (q : Player) :
  p_jumping (jumpLogic w q) = w && (p_jumping q || jumpTriggers w q).
Proof.
  unfold jumpLogic. destruct w; cbn [negb andb].
  - destruct (jumpTriggers true q); cbn [p_jumping set_coyote set_jumping].
    + now rewrite orb_true_r.
    + now rewrite orb_false_r.
  - destruct (jumpTriggers false q); reflexivity.
Qed.

Lemma beforeJump_flags (pow : num -> num -> num) keys dt p :
  p_jumping (beforeJump pow keys dt p) = p_jumping p /\
  p_grounded (beforeJump pow keys dt p) = p_grounded p /\
  p_coyote (beforeJump pow keys dt p) =
    if p_grounded p || (p_coyote p >? ofZ 0)%num
    then PHYS.coyoteMs
    else Math_max (p_coyote p - dt * ofZ 1000)%num (ofZ 0).
Proof.
  unfold beforeJump, coyoteTime, clampFall, applyGravity, clampSpeed,
    applyFriction, applyMove.
  destruct (keyLeft keys); [|destruct (keyRight keys)];
    cbn [p_grounded p_jumping p_coyote set_dir set_dx set_dy set_coyote];
    destruct (p_grounded p) eqn:G;
    cbn [negb orb p_grounded p_jumping p_coyote set_dir set_dx set_dy set_coyote];
    rewrite ?G; repeat split; reflexivity.
Qed.

Lemma moveXLoop_jumping lvl p np tx tys q :
  moveXLoop lvl p np tx tys = Ok q -> p_jumping q = p_jumping np.
Proof.
  induction tys as [|ty rest IH]; cbn [moveXLoop]; intros H.
  - now injection H as <-.
  - unfold bind in H. destruct (getTile lvl _ _) as [t|]; [|discriminate].
    destruct (isSolid t); [|now apply IH].
    now injection H as <-.
Qed.

Lemma tryPlayerMoveY_jumping lvl p dt :
  p_jumping (tryPlayerMoveY lvl p dt) = p_jumping p.
Proof.
  unfold tryPlayerMoveY. rewrite !fold_landOn, !fold_bumpOn.
  repeat match goal with
         | |- context [if ?c then _ else _] => destruct c
         end; reflexivity.
Qed.

Lemma enemyLoop_jumping (stLives : Z) (es : list Enemy) :
  forall i pl, p_jumping (ep_player (enemyLoop stLives i es pl)) = p_jumping pl.
Proof.
  induction es as [|e rest IH]; intros i pl; [reflexivity|].
  cbn [enemyLoop].
  destruct (e_dead e); [apply IH|].
  destruct (rectsCollide _ _); [|apply IH].
  destruct (isStomp pl e); [cbn [ep_player]; now rewrite IH|].
  destruct (_ <=? _)%num; [reflexivity|apply IH].
Qed.

Lemma deathRespawn_jumping lvl dt pl :
  p_jumping (deathRespawn lvl dt pl) = p_jumping pl.
Proof.
  unfold deathRespawn, respawnAtStart.
  repeat match goal with
         | |- context [if ?c then _ else _] => destruct c
         end; reflexivity.
Qed.

Lemma movePlayer_jumping (pow : num -> num -> num) lvl keys dt p q :
  movePlayer pow lvl keys dt p = Ok q ->
  p_jumping q = p_jumping (playerPhysics pow keys dt p).
Proof.
  unfold movePlayer, bind. intros H.
  destruct (tryPlayerMoveX _ _ _) as [mx|] eqn:Hx; [|discriminate].
  injection H as <-. unfold tryPlayerMoveX in Hx.
  apply moveXLoop_jumping in Hx. cbn [p_jumping set_x] in Hx.
  rewrite <- Hx, <- (tryPlayerMoveY_jumping lvl mx dt).
  unfold updateAnim. destruct (_ >? _)%num; reflexivity.
Qed.

Lemma step_jumping (pow : num -> num -> num) st keys dt st' :
  stepGame pow st keys dt = Ok st' ->
  p_jumping (player st') =
  keyUp keys && (p_jumping (player st) || jumpsNow pow st keys dt).
Proof.
  intros H.
  destruct (stepGame_inv _ _ _ _ H) as (movedY & es & flag & Hm & _ & _ & _ & ->).
  change (player (finishStep st dt ?e flag))
    with (clampToWorld (level st) (deathRespawn (level st) dt (ep_player e))).
  change (p_jumping (clampToWorld ?l ?q)) with (p_jumping q).
  rewrite deathRespawn_jumping, enemyLoop_jumping,
    (movePlayer_jumping _ _ _ _ _ _ Hm).
  change (playerPhysics pow keys dt (player st))
    with (jumpLogic (keyUp keys) (beforeJump pow keys dt (player st))).
  rewrite jumpLogic_jumping.
  now rewrite (proj1 (beforeJump_flags pow keys dt (player st))).
Qed.

Lemma jumpsNow_latched (pow : num -> num -> num) st keys dt :
  p_jumping (player st) = true -> jumpsNow pow st keys dt = false.
Proof.
  intros Hj. unfold jumpsNow, jumpTriggers.
  rewrite (proj1 (beforeJump_flags pow keys dt (player st))), Hj.
  now rewrite andb_false_r.
Qed.

Lemma coyote_not_rearmed (c dt : num) :
  nleP (ofZ 0) dt -> (c >? ofZ 0)%num = false ->
  (Math_max (c - dt * ofZ 1000) (ofZ 0) >? ofZ 0)%num = false.
Proof.
  intros Hdt Hc. destruct dt as [|d]; [discriminate|].
  destruct c as [|c]; [reflexivity|].
  apply nleP_fin in Hdt.
  unfold ngt in Hc.
  apply (nlt_false_nleP (ofZ 0) (Fin c) eq_refl eq_refl), nleP_fin in Hc.
  destruct (_ >? _)%num eqn:E; [|reflexivity]. exfalso.
  unfold ngt in E. cbn [nsub nmul lift2 ofZ] in E.
  unfold ofZ in E. rewrite Math_max_fin in E. apply nltP_fin in E.
  rewrite Qred_correct in E. apply Q.max_lt_iff in E.
  change (inject_Z 0) with 0%Q in *. change (inject_Z 1000) with 1000%Q in *.
  destruct E as [E|E].
  - rewrite !Qred_correct in E. nra.
  - lra.
Qed.

Lemma jumpsNow_dy (pow : num -> num -> num) st keys dt :
  jumpsNow pow st keys dt = true ->
  p_dy (playerPhysics pow keys dt (player st)) = (- PHYS.jumpVel)%num /\
  p_grounded (playerPhysics pow keys dt (player st)) = false /\
  p_coyote (playerPhysics pow keys dt (player st)) = ofZ 0.
Proof.
  unfold jumpsNow. intros Hj.
  change (playerPhysics pow keys dt (player st))
    with (jumpLogic (keyUp keys) (beforeJump pow keys dt (player st))).
  unfold jumpLogic. rewrite Hj.
  destruct (negb (keyUp keys)); repeat split; reflexivity.
Qed.

(** X13.  The jump latch.  In a step with a time delta at or above zero
    a jump triggers exactly when the jump key is down, the latch
    [jumping] is off and the player is grounded or has coyote time
    left; a triggered jump sets the upward velocity to the jump
    velocity, clears [grounded] and spends the coyote time; and the
    latch after the step is on exactly when the key is down and the
    latch was on or a jump triggered, so only a frame with the key up
    releases it. *)
Theorem jump_latch_step :
  forall (pow : num -> num -> num) st keys dt st',
    nleP (ofZ 0) dt ->
    stepGame pow st keys dt = Ok st' ->
    jumpsNow pow st keys dt =
      keyUp keys && negb (p_jumping (player st)) &&
      (p_grounded (player st) || (p_coyote (player st) >? ofZ 0)%num) /\
    (jumpsNow pow st keys dt = true ->
     p_dy (playerPhysics pow keys dt (player st)) = (- PHYS.jumpVel)%num /\
     p_grounded (playerPhysics pow keys dt (player st)) = false /\
     p_coyote (playerPhysics pow keys dt (player st)) = ofZ 0) /\
    p_jumping (player st') =
      keyUp keys && (p_jumping (player st) || jumpsNow pow st keys dt).
Proof.
  intros pow st keys dt st' Hdt H. split; [|split].
  - unfold jumpsNow, jumpTriggers.
    destruct (beforeJump_flags pow keys dt (player st)) as (-> & -> & ->).
    destruct (p_grounded (player st)); [reflexivity|]. cbn [orb].
    destruct (p_coyote (player st) >? ofZ 0)%num eqn:E; [reflexivity|].
    now rewrite (coyote_not_rearmed _ _ Hdt E).
  - apply jumpsNow_dy.
  - exact (step_jumping _ _ _ _ _ H).
Qed.

Lemma jump_latch_step_witness :
  exists st',
    stepGame pow_interp stStanding jumpKey dt64 = Ok st' /\
    jumpsNow pow_interp stStanding jumpKey dt64 = true /\
    p_jumping (player st') = true.
Proof.
  assert (H : {st' | stepGame pow_interp stStanding jumpKey dt64 = Ok st'})
    by (eexists; vm_compute; reflexivity).
  destruct H as [st' H]. exists st'. split; [exact H|].
  destruct (jump_latch_step pow_interp stStanding jumpKey dt64 st')
    as (Hj & _ & Hl); [reflexivity|exact H|].
  assert (Hn : jumpsNow pow_interp stStanding jumpKey dt64 = true)
    by (rewrite Hj; reflexivity).
  split; [exact Hn|]. rewrite Hl, Hn. reflexivity.
Defined.

Lemma jumpCount_latched (pow : num -> num -> num) frames :
  forall st n,
    p_jumping (player st) = true ->
    Forall (fun f => keyUp (fst f) = true) frames ->
    jumpCount pow st frames = Ok n -> n = 0%nat.
Proof.
  induction frames as [|[keys dt] rest IH]; intros st n Hj Hall H.
  - now injection H as <-.
  - cbn [jumpCount] in H. unfold bind in H.
    destruct (stepGame pow st keys dt) as [st'|] eqn:Hs; [|discriminate].
    destruct (jumpCount pow st' rest) as [m|] eqn:Hm; [|discriminate].
    injection H as <-.
    rewrite (jumpsNow_latched pow st keys dt Hj).
    inversion Hall as [|f fs Hup Hrest]; subst. cbn [fst] in Hup.
    apply (IH st' m); [|exact Hrest|exact Hm].
    rewrite (step_jumping _ _ _ _ _ Hs), Hup, Hj. reflexivity.
Qed.

Lemma jumpCount_held (pow : num -> num -> num) frames :
  forall st n,
    Forall (fun f => keyUp (fst f) = true) frames ->
    jumpCount pow st frames = Ok n -> (n <= 1)%nat.
Proof.
  induction frames as [|[keys dt] rest IH]; intros st n Hall H.
  - injection H as <-. lia.
  - cbn [jumpCount] in H. unfold bind in H.
    destruct (stepGame pow st keys dt) as [st'|] eqn:Hs; [|discriminate].
    destruct (jumpCount pow st' rest) as [m|] eqn:Hm; [|discriminate].
    injection H as <-.
    inversion Hall as [|f fs Hup Hrest]; subst. cbn [fst] in Hup.
    destruct (jumpsNow pow st keys dt) eqn:Hj.
    + assert (Hl : p_jumping (player st') = true).
      { rewrite (step_jumping _ _ _ _ _ Hs), Hup, Hj. now rewrite orb_true_r. }
      rewrite (jumpCount_latched pow rest st' m Hl Hrest Hm). lia.
    + pose proof (IH st' m Hrest Hm). lia.
Qed.

(** X14.  Holding the jump key jumps at most once: over any run of
    frames in all of which the jump key is down, a jump triggers in at
    most one frame, and in none when the latch is already on at the
    start.  Landing does not release the latch. *)
Theorem held_key_jumps_once :
  forall (pow : num -> num -> num) st frames n,
    Forall (fun f => keyUp (fst f) = true) frames ->
    jumpCount pow st frames = Ok n ->
    (n <= 1)%nat /\ (p_jumping (player st) = true -> n = 0%nat).
Proof.
  intros pow st frames n Hall H. split.
  - exact (jumpCount_held pow frames st n Hall H).
  - intros Hj. exact (jumpCount_latched pow frames st n Hj Hall H).
Qed.

Lemma held_key_jumps_once_witness :
  jumpCount pow_interp stStanding heldJump3 = Ok 1%nat /\ (1 <= 1)%nat.
Proof.
  assert (H : jumpCount pow_interp stStanding heldJump3 = Ok 1%nat)
    by (vm_compute; reflexivity).
  split; [exact H|].
  apply (held_key_jumps_once pow_interp stStanding heldJump3 1%nat);
    [repeat constructor|exact H].
Defined.

(* ------------------------------------------------------------------ *)
(** *** Game.js: what a step reads of the key map *)

Lemma playerPhysics_keys (pow : num -> num -> num) keys1 keys2 dt p :
  keyLeft keys1 = keyLeft keys2 ->
  (keyLeft keys1 = false -> keyRight keys1 = keyRight keys2) ->
  keyUp keys1 = keyUp keys2 ->
  playerPhysics pow keys1 dt p = playerPhysics pow keys2 dt p.
Proof.
  intros Hl Hr Hu. unfold playerPhysics, applyMove.
  rewrite <- Hu, <- Hl. destruct (keyLeft keys1); [reflexivity|].
  now rewrite <- (Hr eq_refl).
Qed.

(** X15.  A step reads three things of the key map: whether left is
    down (ArrowLeft or KeyA), whether right is down (ArrowRight or
    KeyD) when left is not, and whether jump is down (ArrowUp or
    Space).  Two key maps that agree on these give the same result, so
    left wins over right when both are down, the two codes of a control
    are interchangeable, and every other key is ignored. *)
Theorem step_reads_three_controls :
  forall (pow : num -> num -> num) st keys1 keys2 dt,
    keyLeft keys1 = keyLeft keys2 ->
    (keyLeft keys1 = false -> keyRight keys1 = keyRight keys2) ->
    keyUp keys1 = keyUp keys2 ->
    stepGame pow st keys1 dt = stepGame pow st keys2 dt.
Proof.
  intros pow st keys1 keys2 dt Hl Hr Hu.
  unfold stepGame, movePlayer.
  now rewrite (playerPhysics_keys pow keys1 keys2 dt (player st) Hl Hr Hu).
Qed.

Lemma step_reads_three_controls_witness :
  stepGame pow_interp stStanding bothArrows dt64 =
  stepGame pow_interp stStanding onlyKeyA dt64.
Proof.
  apply (step_reads_three_controls pow_interp stStanding bothArrows onlyKeyA dt64).
  - reflexivity.
  - intros H. discriminate H.
  - reflexivity.
Defined.

(* ------------------------------------------------------------------ *)
(** *** useGameLoop.js: the key map *)

(** X16.  The key map holds, for every key code, the kind of the last
    event received for that code: [true] after a keydown, [false] after
    a keyup, and the old entry when no event named the code.  Events
    for other codes do not touch it, and repeated keydown events (key
    repeat) change nothing. *)
Theorem key_map_last_event :
  forall (evs : list KeyEvent) (keys : Keys) (code : string),
    keyEvents keys evs code =
    match lastEvent code evs with
    | Some b => b
    | None => keys code
    end.
Proof.
  unfold keyEvents.
  induction evs as [|ev rest IH]; intros keys code; [reflexivity|].
  cbn [fold_left lastEvent]. rewrite IH.
  destruct (lastEvent code rest); [reflexivity|].
  destruct ev as [c|c]; cbn [keyEvent]; unfold keyOn, keyOff;
    destruct (String.eqb code c); reflexivity.
Qed.

(* ------------------------------------------------------------------ *)
(** *** Game.js: fitting the canvas to the window *)

Lemma Qred_inject_Z (z : Z) : Qred (inject_Z z) = inject_Z z.
Proof.
  unfold Qred, inject_Z.
  pose proof (Z.ggcd_gcd z 1) as Hg.
  pose proof (Z.ggcd_correct_divisors z 1) as Hd.
  destruct (Z.ggcd z 1) as (g & a & b). cbn [fst] in Hg.
  rewrite Z.gcd_1_r in Hg. subst g. destruct Hd as (Ha & Hb).
  rewrite Z.mul_1_l in Ha, Hb. now subst a b.
Qed.

Lemma Math_max_ofZ (a b : Z) : Math_max (ofZ a) (ofZ b) = ofZ (Z.max a b).
Proof.
  unfold ofZ. rewrite Math_max_fin. f_equal.
  rewrite <- (Qred_inject_Z (Z.max a b)). apply Qred_complete.
  destruct (Z.le_ge_cases a b) as [H|H].
  - rewrite (Z.max_r _ _ H). apply Q.max_r. now rewrite <- Zle_Qle.
  - rewrite (Z.max_l _ _ H). apply Q.max_l. now rewrite <- Zle_Qle.
Qed.

Lemma Math_min_ofZ (a b : Z) : Math_min (ofZ a) (ofZ b) = ofZ (Z.min a b).
Proof.
  unfold ofZ. rewrite Math_min_fin. f_equal.
  rewrite <- (Qred_inject_Z (Z.min a b)). apply Qred_complete.
  destruct (Z.le_ge_cases a b) as [H|H].
  - rewrite (Z.min_l _ _ H). apply Q.min_l. now rewrite <- Zle_Qle.
  - rewrite (Z.min_r _ _ H). apply Q.min_r. now rewrite <- Zle_Qle.
Qed.

Lemma floor_scaled (c k : Z) : Math_floor (ofZ c * ofZ k)%num = ofZ (c * k).
Proof.
  unfold ofZ. cbn [nmul lift2 Math_floor]. unfold ofZ. do 2 f_equal.
  rewrite Qred_correct, <- inject_Z_mult. apply Qfloor_Z.
Qed.

Lemma floor_div_const (q : Q) (c : Z) :
  (0 < c)%Z ->
  exists k, Math_floor (Fin q / ofZ c) = ofZ k /\
            (inject_Z (c * k) <= q)%Q /\ (q < inject_Z (c * (k + 1)))%Q.
Proof.
  intros Hc. exists (Qfloor (q / inject_Z c)).
  assert (Hc' : (0 < inject_Z c)%Q) by (now rewrite Zlt_Qlt in Hc).
  assert (Hne : Qeq_bool (inject_Z c) 0 = false).
  { apply not_true_is_false. intros E. apply Qeq_bool_iff in E.
    rewrite E in Hc'. discriminate. }
  split; [|split].
  - unfold ofZ, ndiv. rewrite Hne. cbn [Math_floor]. unfold ofZ. do 2 f_equal.
    now rewrite Qred_correct.
  - rewrite inject_Z_mult, Qmult_comm.
    apply (Qmult_le_r _ _ (/ inject_Z c)); [now apply Qinv_lt_0_compat|].
    rewrite <- Qmult_assoc, Qmult_inv_r, Qmult_1_r
      by (intros E; rewrite E in Hc'; discriminate).
    apply Qfloor_le.
  - rewrite inject_Z_mult, Qmult_comm.
    apply (Qmult_lt_r _ _ (/ inject_Z c)); [now apply Qinv_lt_0_compat|].
    rewrite <- Qmult_assoc, Qmult_inv_r, Qmult_1_r
      by (intros E; rewrite E in Hc'; discriminate).
    apply Qlt_floor.
Qed.

(** X17.  The canvas size chosen for a window of [w] by [h] pixels is
    a whole multiple [k] of the 384 by 216 game: the aspect ratio is
    exact.  The canvas is never taller than the window; it is not wider
    than the window when the window is at least 384 wide (a narrower
    window still gets a canvas 384 wide when it is at least 216 tall);
    the scale is at least 1 when the window is at least 216 tall and at
    most 0 (nothing is shown) when it is lower; and for a window of at
    least 384 by 216 [k] is the largest whole scale that fits. *)
Theorem fitCanvas_fits :
  forall (w h : Q),
    exists k : Z,
      cd_scale (fitCanvas (Fin w) (Fin h)) = ofZ k /\
      cd_width (fitCanvas (Fin w) (Fin h)) = ofZ (384 * k) /\
      cd_height (fitCanvas (Fin w) (Fin h)) = ofZ (216 * k) /\
      (inject_Z (216 * k) <= h)%Q /\
      ((384 <= w)%Q -> (inject_Z (384 * k) <= w)%Q) /\
      ((w < 384)%Q -> (216 <= h)%Q -> k = 1%Z) /\
      ((216 <= h)%Q -> (1 <= k)%Z) /\
      ((h < 216)%Q -> (k <= 0)%Z) /\
      ((384 <= w)%Q -> (216 <= h)%Q ->
       (w < inject_Z (384 * (k + 1)))%Q \/ (h < inject_Z (216 * (k + 1)))%Q).
Proof.
  intros w h.
  destruct (floor_div_const w 384 eq_refl) as (kw & Ew & Lw & Uw).
  destruct (floor_div_const h 216 eq_refl) as (kh & Eh & Lh & Uh).
  exists (Z.min (Z.max kw 1) kh).
  unfold fitCanvas, GAME_WIDTH, GAME_HEIGHT. cbn [cd_scale cd_width cd_height].
  rewrite Ew, Eh, Math_max_ofZ, Math_min_ofZ, !floor_scaled.
  split; [reflexivity|]. split; [reflexivity|]. split; [reflexivity|].
  assert (Hkw : (384 <= w)%Q -> (1 <= kw)%Z).
  { intros H.
    assert (A : (inject_Z 384 < inject_Z (384 * (kw + 1)))%Q).
    { eapply Qle_lt_trans; [exact H|exact Uw]. }
    rewrite <- Zlt_Qlt in A. lia. }
  assert (Hkw' : (w < 384)%Q -> (kw <= 0)%Z).
  { intros H.
    assert (A : (inject_Z (384 * kw) < inject_Z 384)%Q).
    { eapply Qle_lt_trans; [exact Lw|exact H]. }
    rewrite <- Zlt_Qlt in A. lia. }
  assert (Hkh : (216 <= h)%Q -> (1 <= kh)%Z).
  { intros H.
    assert (A : (inject_Z 216 < inject_Z (216 * (kh + 1)))%Q).
    { eapply Qle_lt_trans; [exact H|exact Uh]. }
    rewrite <- Zlt_Qlt in A. lia. }
  assert (Hkh' : (h < 216)%Q -> (kh <= 0)%Z).
  { intros H.
    assert (A : (inject_Z (216 * kh) < inject_Z 216)%Q).
    { eapply Qle_lt_trans; [exact Lh|exact H]. }
    rewrite <- Zlt_Qlt in A. lia. }
  repeat split.
  - eapply Qle_trans; [|exact Lh]. rewrite <- Zle_Qle. lia.
  - intros H. specialize (Hkw H).
    eapply Qle_trans; [|exact Lw]. rewrite <- Zle_Qle. lia.
  - intros H1 H2. specialize (Hkw' H1). specialize (Hkh H2). lia.
  - intros H. specialize (Hkh H). lia.
  - intros H. specialize (Hkh' H). lia.
  - intros H1 H2. specialize (Hkw H1). specialize (Hkh H2).
    destruct (Z.le_ge_cases kw kh) as [L|L].
    + left. replace (Z.min (Z.max kw 1) kh) with kw by lia. exact Uw.
    + right. replace (Z.min (Z.max kw 1) kh) with kh by lia. exact Uh.
Qed.

Lemma fitCanvas_fits_witness :
  exists k : Z,
    cd_scale (fitCanvas (Fin 1000) (Fin 500)) = ofZ k /\
    (inject_Z (384 * k) <= 1000)%Q /\ (1 <= k)%Z.
Proof.
  destruct (fitCanvas_fits 1000 500)
    as (k & Hs & _ & _ & _ & Hw & _ & Hk & _).
  exists k. split; [exact Hs|]. split.
  - apply Hw. discriminate.
  - apply Hk. discriminate.
Defined.

(* ------------------------------------------------------------------ *)
(** *** Game.js: the coin pass and the counters of the HUD *)

Lemma coinLoop_countCollected rect cs :
  forall i,
    countCollected (cp_coins (coinLoop rect i cs)) =
    (countCollected cs + List.length (cp_picked (coinLoop rect i cs)))%nat.
Proof.
  unfold countCollected.
  induction cs as [|c rest IH]; intros i; [reflexivity|].
  cbn [coinLoop]. destruct (coinHit rect c) eqn:Hh.
  - apply coinHit_true in Hh. destruct Hh as (Hc & _).
    cbn [cp_coins cp_picked filter]. rewrite Hc.
    change (c_collected (set_c_collected true c)) with true.
    cbn [List.length]. rewrite IH. lia.
  - cbn [cp_coins cp_picked filter]. destruct (c_collected c);
      cbn [List.length]; rewrite IH; lia.
Qed.

Lemma coinLoop_kept rect cs :
  forall i, Forall2 coinKept cs (cp_coins (coinLoop rect i cs)).
Proof.
  induction cs as [|c rest IH]; intros i; [constructor|].
  cbn [coinLoop]. destruct (coinHit rect c) eqn:Hh; cbn [cp_coins].
  - constructor; [|apply IH]. apply coinHit_true in Hh. destruct Hh as (Hc & _).
    repeat split. intros Ht. congruence.
  - constructor; [|apply IH]. repeat split.
Qed.

Lemma step_coin_count (pow : num -> num -> num) st keys dt st' :
  stepGame pow st keys dt = Ok st' ->
  (List.length (collectedCoins st') + countCollected (coins st) =
   List.length (collectedCoins st) + countCollected (coins st'))%nat.
Proof.
  intros H.
  destruct (stepGame_inv _ _ _ _ H) as (movedY & es & flag & _ & _ & _ & _ & ->).
  cbn [collectedCoins coins finishStep].
  rewrite length_app, coinLoop_countCollected. lia.
Qed.

(** X18.  The coin counter of the HUD, the length of [collectedCoins],
    is the number of tombstoned coins: a step adds as many indices to
    [collectedCoins] as it tombstones coins, so in every state of a
    session the two agree, and the counter never exceeds the number of
    coins of the level. *)
Theorem hud_coin_count :
  forall (pow : num -> num -> num),
    (forall st keys dt st',
        stepGame pow st keys dt = Ok st' ->
        (List.length (collectedCoins st') + countCollected (coins st) =
         List.length (collectedCoins st) + countCollected (coins st'))%nat) /\
    (forall st,
        reachable pow st ->
        List.length (collectedCoins st) = countCollected (coins st) /\
        (List.length (collectedCoins st) <= List.length (coins st))%nat).
Proof.
  intros pow. split; [exact (step_coin_count pow)|].
  intros st Hr.
  assert (E : List.length (collectedCoins st) = countCollected (coins st)).
  { induction Hr as [|st keys dt st' _ IH Hstep]; [reflexivity|].
    pose proof (step_coin_count _ _ _ _ _ Hstep). lia. }
  split; [exact E|]. rewrite E. unfold countCollected. apply filter_length_le.
Qed.

Lemma hud_coin_count_witness :
  exists st',
    stepGame pow_interp stThreeCoins noKeys dt64 = Ok st' /\
    (List.length (collectedCoins st') + countCollected (coins stThreeCoins) =
     List.length (collectedCoins stThreeCoins) + countCollected (coins st'))%nat.
Proof.
  assert (H : {st' | stepGame pow_interp stThreeCoins noKeys dt64 = Ok st'})
    by (eexists; vm_compute; reflexivity).
  destruct H as [st' H]. exists st'. split; [exact H|].
  exact (proj1 (hud_coin_count pow_interp) stThreeCoins noKeys dt64 st' H).
Defined.

(** X19.  What a step never undoes.  The score does not decrease; the
    level and the [started] flag are handed on; the timer advances by
    the time delta; [collectedCoins] only grows at its end; and every
    coin keeps its place and radius, a coin already collected being
    handed on as it is. *)
Theorem step_never_undoes :
  forall (pow : num -> num -> num) st keys dt st',
    stepGame pow st keys dt = Ok st' ->
    (score st <= score st')%Z /\
    level st' = level st /\
    started st' = started st /\
    timer st' = (timer st + dt)%num /\
    (exists picked, collectedCoins st' = (collectedCoins st ++ picked)%list) /\
    Forall2 coinKept (coins st) (coins st').
Proof.
  intros pow st keys dt st' H.
  destruct (step_score _ _ _ _ H) as (movedY & es & _ & _ & _ & Hst & Hsc).
  cbv zeta in Hst, Hsc. split.
  - rewrite Hsc. destruct (win st'); lia.
  - rewrite Hst. repeat split.
    + eexists. reflexivity.
    + apply coinLoop_kept.
Qed.

Lemma step_never_undoes_witness :
  exists st',
    stepGame pow_interp stThreeCoins noKeys dt64 = Ok st' /\
    (score stThreeCoins <= score st')%Z.
Proof.
  assert (H : {st' | stepGame pow_interp stThreeCoins noKeys dt64 = Ok st'})
    by (eexists; vm_compute; reflexivity).
  destruct H as [st' H]. exists st'. split; [exact H|].
  exact (proj1 (step_never_undoes pow_interp stThreeCoins noKeys dt64 st' H)).
Defined.

(* ------------------------------------------------------------------ *)
(** *** Game.js: [circleBoxCollide] *)

Lemma nlt_fin (x y : Q) : (Fin x <? Fin y)%num = true <-> (x < y)%Q.
Proof. exact (nltP_fin x y). Qed.

Lemma circleBox_value (cx cy cr bx byy bw bh : Q) :
  exists tx ty,
    (tx == Qmax bx (Qmin (bx + bw) cx))%Q /\
    (ty == Qmax byy (Qmin (byy + bh) cy))%Q /\
    (circleBoxCollide (Fin cx) (Fin cy) (Fin cr)
       (mkRect (Fin bx) (Fin byy) (Fin bw) (Fin bh)) = true <->
     ((cx - tx) * (cx - tx) + (cy - ty) * (cy - ty) < cr * cr + (5 # 10))%Q).
Proof.
  unfold circleBoxCollide. cbn [rx ry rw rh].
  cbn [nadd lift2].
  destruct (clamp_fin cx bx (Qred (bx + bw))) as (tx & -> & Etx).
  destruct (clamp_fin cy byy (Qred (byy + bh))) as (ty & -> & Ety).
  exists tx, ty. rewrite Qred_correct in Etx, Ety.
  split; [exact Etx|]. split; [exact Ety|].
  unfold lit. cbn [nsub nmul nadd lift2]. rewrite nlt_fin.
  rewrite !Qred_correct. reflexivity.
Qed.

Lemma Qsq_nonneg (a : Q) : (0 <= a * a)%Q.
Proof.
  destruct (Qlt_le_dec a 0) as [H|H].
  - setoid_replace (a * a)%Q with ((- a) * (- a))%Q by ring.
    apply Qmult_le_0_compat; lra.
  - now apply Qmult_le_0_compat.
Qed.

Lemma Qsq_far (d r : Q) :
  (0 <= r)%Q -> (r + 1 <= d)%Q -> (r * r + 1 <= d * d)%Q.
Proof.
  intros Hr Hd.
  assert (A : (0 <= (d - (r + 1)) * (d + (r + 1)))%Q)
    by (apply Qmult_le_0_compat; lra).
  assert (B : ((d - (r + 1)) * (d + (r + 1)) == d * d - (r * r + 2 * r + 1))%Q)
    by ring.
  rewrite B in A. lra.
Qed.

(** X20.  The reach of a coin.  A coin whose centre lies inside the
    box of the player touches it, whatever its radius; a coin of
    radius [r >= 0] whose centre is further than [r + 1] to the left,
    to the right, above or below the box does not; and a test with a
    NaN coordinate is false. *)
Theorem circleBoxCollide_reach :
  forall (cx cy cr bx byy bw bh : Q),
    let box := mkRect (Fin bx) (Fin byy) (Fin bw) (Fin bh) in
    ((bx <= cx)%Q -> (cx <= bx + bw)%Q -> (byy <= cy)%Q -> (cy <= byy + bh)%Q ->
     circleBoxCollide (Fin cx) (Fin cy) (Fin cr) box = true) /\
    ((0 <= cr)%Q -> (0 <= bw)%Q -> (0 <= bh)%Q ->
     (cx + cr + 1 <= bx \/ bx + bw + cr + 1 <= cx \/
      cy + cr + 1 <= byy \/ byy + bh + cr + 1 <= cy)%Q ->
     circleBoxCollide (Fin cx) (Fin cy) (Fin cr) box = false) /\
    circleBoxCollide NaN (Fin cy) (Fin cr) box = false /\
    circleBoxCollide (Fin cx) NaN (Fin cr) box = false.
Proof.
  intros cx cy cr bx byy bw bh box. subst box.
  destruct (circleBox_value cx cy cr bx byy bw bh) as (tx & ty & Etx & Ety & Hiff).
  split; [|split; [|split; reflexivity]].
  - intros H1 H2 H3 H4. apply Hiff.
    rewrite (Q.min_r _ _ H2), (Q.max_r _ _ H1) in Etx.
    rewrite (Q.min_r _ _ H4), (Q.max_r _ _ H3) in Ety.
    rewrite Etx, Ety. nra.
  - intros Hr Hw Hh Hfar. apply not_true_is_false. intros Ht.
    apply Hiff in Ht.
    pose proof (Qsq_nonneg (cx - tx)) as Sx.
    pose proof (Qsq_nonneg (cy - ty)) as Sy.
    destruct Hfar as [F|[F|[F|F]]].
    + assert (Hm : (Qmin (bx + bw) cx == cx)%Q) by (apply Q.min_r; lra).
      rewrite Hm, Q.max_l in Etx by lra.
      pose proof (Qsq_far (bx - cx) cr Hr ltac:(lra)) as Hf.
      rewrite Etx in Ht, Sx. nra.
    + assert (Hm : (Qmin (bx + bw) cx == bx + bw)%Q) by (apply Q.min_l; lra).
      rewrite Hm, Q.max_r in Etx by lra.
      pose proof (Qsq_far (cx - (bx + bw)) cr Hr ltac:(lra)) as Hf.
      rewrite Etx in Ht, Sx. nra.
    + assert (Hm : (Qmin (byy + bh) cy == cy)%Q) by (apply Q.min_r; lra).
      rewrite Hm, Q.max_l in Ety by lra.
      pose proof (Qsq_far (byy - cy) cr Hr ltac:(lra)) as Hf.
      rewrite Ety in Ht, Sy. nra.
    + assert (Hm : (Qmin (byy + bh) cy == byy + bh)%Q) by (apply Q.min_l; lra).
      rewrite Hm, Q.max_r in Ety by lra.
      pose proof (Qsq_far (cy - (byy + bh)) cr Hr ltac:(lra)) as Hf.
      rewrite Ety in Ht, Sy. nra.
Qed.

Lemma circleBoxCollide_reach_witness :
  circleBoxCollide (Fin 30) (Fin 180) (Fin 6)
    (mkRect (Fin 24) (Fin 170) (Fin 18) (Fin 22)) = true /\
  circleBoxCollide (Fin 10) (Fin 180) (Fin 6)
    (mkRect (Fin 24) (Fin 170) (Fin 18) (Fin 22)) = false.
Proof.
  split.
  - apply (proj1 (circleBoxCollide_reach 30 180 6 24 170 18 22)); discriminate.
  - destruct (circleBoxCollide_reach 10 180 6 24 170 18 22) as (_ & Hfar & _).
    apply Hfar; try discriminate. left. discriminate.
Defined.

(* ------------------------------------------------------------------ *)
(** *** Game.js: a session never throws on finite time deltas *)





(* ------------------------------------------------------------------ *)
(** *** Game.js: the animation clock and frame *)

Lemma nmod2_nonneg (n : Z) :
  (0 <= n)%Z -> nmod (ofZ n) 2 = ofZ 0 \/ nmod (ofZ n) 2 = ofZ 1.
Proof.
  intros Hn. unfold nmod, ofZ.
  change (Qnum (inject_Z n)) with n.
  change (Qabs (inject_Z n)) with (inject_Z (Z.abs n)).
  rewrite Qfloor_Z, (Z.abs_eq n Hn).
  set (m := (2 * (n ÷ 2) * Z.sgn n)%Z).
  assert (E : Qred (inject_Z n - inject_Z m) = inject_Z (n - m)).
  { rewrite <- (Qred_inject_Z (n - m)). apply Qred_complete.
    unfold Qminus. now rewrite <- inject_Z_opp, <- inject_Z_plus. }
  rewrite E.
  pose proof (Z.quot_rem n 2 ltac:(lia)) as Hq.
  pose proof (Z.rem_bound_pos n 2 Hn ltac:(lia)) as Hb.
  assert (Hm : (n - m = 0 \/ n - m = 1)%Z) by (subst m; nia).
  destruct Hm as [-> | ->]; [left|right]; reflexivity.
Qed.

Lemma moveXLoop_anim lvl p np tx tys q :
  moveXLoop lvl p np tx tys = Ok q ->
  p_animTimer q = p_animTimer np /\ p_frame q = p_frame np.
Proof.
  induction tys as [|ty rest IH]; cbn [moveXLoop]; intros H.
  - injection H as <-. now split.
  - unfold bind in H. destruct (getTile lvl _ _) as [t|]; [|discriminate].
    destruct (isSolid t); [|now apply IH].
    injection H as <-. now split.
Qed.

Lemma tryPlayerMoveY_anim lvl p dt :
  p_animTimer (tryPlayerMoveY lvl p dt) = p_animTimer p.
Proof.
  unfold tryPlayerMoveY. rewrite !fold_landOn, !fold_bumpOn.
  repeat match goal with
         | |- context [if ?c then _ else _] => destruct c
         end; reflexivity.
Qed.

Lemma playerPhysics_anim (pow : num -> num -> num) keys dt p :
  p_animTimer (playerPhysics pow keys dt p) = p_animTimer p.
Proof.
  unfold playerPhysics, jumpLogic, coyoteTime, clampFall, applyGravity,
    clampSpeed, applyFriction, applyMove.
  repeat match goal with
         | |- context [if ?c then _ else _] => destruct c
         end; reflexivity.
Qed.

Lemma enemyLoop_anim (stLives : Z) (es : list Enemy) :
  forall i pl,
    p_animTimer (ep_player (enemyLoop stLives i es pl)) = p_animTimer pl /\
    p_frame (ep_player (enemyLoop stLives i es pl)) = p_frame pl.
Proof.
  induction es as [|e rest IH]; intros i pl; [now split|].
  cbn [enemyLoop].
  destruct (e_dead e); [apply IH|].
  destruct (rectsCollide _ _); [|apply IH].
  destruct (isStomp pl e); [cbn [ep_player]; apply (IH (S i) (stompBounce pl))|].
  destruct (_ <=? _)%num; [now split|apply IH].
Qed.

Lemma deathRespawn_anim lvl dt pl :
  p_animTimer (deathRespawn lvl dt pl) = p_animTimer pl /\
  p_frame (deathRespawn lvl dt pl) = p_frame pl.
Proof.
  unfold deathRespawn, respawnAtStart.
  repeat match goal with
         | |- context [if ?c then _ else _] => destruct c
         end; now split.
Qed.

Lemma step_anim (pow : num -> num -> num) st keys dt st' :
  stepGame pow st keys dt = Ok st' ->
  p_animTimer (player st') = (p_animTimer (player st) + dt)%num /\
  (p_frame (player st') = ofZ 0 \/
   p_frame (player st') =
     nmod (Math_floor (p_animTimer (player st') * ofZ 8)%num) 2).
Proof.
  intros H.
  destruct (stepGame_inv _ _ _ _ H) as (movedY & es & flag & Hm & _ & _ & _ & ->).
  change (player (finishStep st dt ?e flag))
    with (clampToWorld (level st) (deathRespawn (level st) dt (ep_player e))).
  change (p_animTimer (clampToWorld ?l ?q)) with (p_animTimer q).
  change (p_frame (clampToWorld ?l ?q)) with (p_frame q).
  destruct (deathRespawn_anim (level st) dt
              (ep_player (enemyLoop (lives st) 0 es movedY))) as (-> & ->).
  destruct (enemyLoop_anim (lives st) es 0 movedY) as (-> & ->).
  unfold movePlayer, bind in Hm.
  destruct (tryPlayerMoveX _ _ _) as [mx|] eqn:Hx; [|discriminate].
  injection Hm as <-. unfold tryPlayerMoveX in Hx.
  apply moveXLoop_anim in Hx. destruct Hx as (Ht & _).
  cbn [p_animTimer set_x] in Ht. rewrite playerPhysics_anim in Ht.
  unfold updateAnim. destruct (_ >? _)%num;
    cbn [p_animTimer p_frame set_frame set_animTimer];
    rewrite tryPlayerMoveY_anim, Ht; split; auto.
Qed.

(** X22.  The animation clock and frame.  Every step, also while the
    player is dead, advances the animation clock by the time delta; the
    frame after a step is 0 or the parity of the eighths of a second on
    the clock, so it is 0 or 1 whenever the clock is at or above zero. *)
Theorem anim_frame_zero_or_one :
  forall (pow : num -> num -> num) st keys dt st',
    stepGame pow st keys dt = Ok st' ->
    p_animTimer (player st') = (p_animTimer (player st) + dt)%num /\
    (nleP (ofZ 0) (p_animTimer (player st')) ->
     p_frame (player st') = ofZ 0 \/ p_frame (player st') = ofZ 1).
Proof.
  intros pow st keys dt st' H.
  destruct (step_anim _ _ _ _ _ H) as (Ht & Hf). split; [exact Ht|].
  intros Hpos. destruct Hf as [Hf|Hf]; [now left|]. rewrite Hf.
  destruct (p_animTimer (player st')) as [|t]; [discriminate|].
  apply nleP_fin in Hpos. cbn [nmul lift2 ofZ Math_floor].
  apply nmod2_nonneg.
  assert (A : (inject_Z 0 <= Qred (t * inject_Z 8))%Q).
  { rewrite Qred_correct. change (inject_Z 0) with 0%Q in *.
    change (inject_Z 8) with 8%Q. lra. }
  apply Qfloor_resp_le in A. now rewrite Qfloor_Z in A.
Qed.

Lemma anim_frame_zero_or_one_witness :
  exists st',
    stepGame pow_interp stTooFast noKeys dt64 = Ok st' /\
    p_animTimer (player st') = dt64.
Proof.
  assert (H : {st' | stepGame pow_interp stTooFast noKeys dt64 = Ok st'})
    by (eexists; vm_compute; reflexivity).
  destruct H as [st' H]. exists st'. split; [exact H|].
  rewrite (proj1 (anim_frame_zero_or_one pow_interp stTooFast noKeys dt64 st' H)).
  reflexivity.
Defined.
